(** * Derecho: a shallow embedding of the multicast parameters, the SST
      counters, the configuration helpers and the latency experiment.

    The development follows the C++ sources:

    - [include/derecho/core/detail/multicast_group.hpp]
        ([header], [DerechoParams]),
    - [include/derecho/core/detail/derecho_sst.hpp] ([DerechoSST]),
    - [src/conf/conf.cpp] ([split_string]),
    - [applications/archive/latency_test.cpp]
        ([membership_function], [stability_callback]).

    Fixed-width integers are values of [Z] with their wrap-around written
    out; [std::string] is [string]; [std::vector] is [list] with stdpp's
    lookup and insert; C++ exceptions, undefined behaviour and loops that
    may not terminate are results of the [outcome] type. *)

From Stdlib Require Import ZArith Lia Bool List.
From Stdlib Require Import Ascii String.
From stdpp Require Import base tactics option list strings gmap.

Local Open Scope Z_scope.

(** ** Machine integers *)

Definition wrap32 (z : Z) : Z := z mod 2 ^ 32.
Definition wrap64 (z : Z) : Z := z mod 2 ^ 64.

Definition is_uint32 (z : Z) : Prop := 0 <= z < 2 ^ 32.
Definition is_uint64 (z : Z) : Prop := 0 <= z < 2 ^ 64.

(** ** Results of running C++ code *)

(** What the sources throw.  [thrown_string] is a bare [std::string] used
    as an exception object; the others are exception classes. *)
Inductive exn : Type :=
| thrown_string (what : string)
| out_of_range
| subgroup_provisioning_exception.

(** A call returns normally, throws, runs into undefined behaviour, or has
    not returned when the fuel of a loop ran out. *)
Inductive outcome (A : Type) : Type :=
| Ok (a : A)
| Throw (e : exn)
| Undefined
| OutOfFuel.

Arguments Ok {A} a.
Arguments Throw {A} e.
Arguments Undefined {A}.
Arguments OutOfFuel {A}.

#[global] Instance outcome_ret : MRet outcome := fun A a => Ok a.

#[global] Instance outcome_bind : MBind outcome := fun A B k m =>
  match m with
  | Ok a => k a
  | Throw e => Throw e
  | Undefined => Undefined
  | OutOfFuel => OutOfFuel
  end.

Definition returns {A : Type} (m : outcome A) : Prop := exists a, m = Ok a.

(** ** [std::string] operations used by the configuration code *)

Module StdString.

Definition size (s : string) : nat := String.length s.

(** The characters of [s] from position [pos] on (none when [pos] is
    past the end). *)
Fixpoint suffix_from (pos : nat) (s : string) : string :=
  match pos, s with
  | O, _ => s
  | S p, EmptyString => EmptyString
  | S p, String _ s' => suffix_from p s'
  end.

(** The first [count] characters (all of them when there are fewer). *)
Fixpoint take_chars (count : nat) (s : string) : string :=
  match count, s with
  | O, _ => EmptyString
  | S _, EmptyString => EmptyString
  | S c, String a s' => String a (take_chars c s')
  end.

(** [s.substr(pos, count)]: [count] is a LENGTH, clipped at the end of
    the string; [std::out_of_range] when [pos > size()]. *)
Definition substr (s : string) (pos count : nat) : outcome string :=
  if (size s <? pos)%nat then Throw out_of_range
  else Ok (take_chars count (suffix_from pos s)).

(** [s.substr(pos)], the count defaulting to [npos]. *)
Definition substr_to_end (s : string) (pos : nat) : outcome string :=
  if (size s <? pos)%nat then Throw out_of_range
  else Ok (suffix_from pos s).

(** Does [d] occur at the very beginning of [s]? *)
Fixpoint starts_with (d s : string) : bool :=
  match d, s with
  | EmptyString, _ => true
  | String _ _, EmptyString => false
  | String a d', String b s' => if Ascii.eqb a b then starts_with d' s' else false
  end.

(** Offset of the first occurrence of [d] in [s], if any. *)
Fixpoint first_occurrence (d s : string) : option nat :=
  if starts_with d s then Some O
  else match s with
       | EmptyString => None
       | String _ s' => option_map S (first_occurrence d s')
       end.

(** [s.find(d, pos)]: the first position [>= pos] at which [d] occurs,
    [None] standing for [npos]. *)
Definition find (s d : string) (pos : nat) : option nat :=
  if (size s <? pos)%nat then None
  else option_map (fun k => (pos + k)%nat) (first_occurrence d (suffix_from pos s)).

(** Is [d] a substring of [s]? *)
Definition contains (s d : string) : bool :=
  match find s d 0 with Some _ => true | None => false end.

End StdString.

(** ** [conf.cpp] *)

Module Conf.
Import StdString.

(** The [while] loop of [split_string]; [lastpos] and [result] are the
    loop-carried variables. *)
Fixpoint split_loop (fuel : nat) (str delimiter : string)
         (lastpos : nat) (result : list string) : outcome (list string) :=
  match fuel with
  | O => OutOfFuel
  | S fuel' =>
      match find str delimiter lastpos with
      | Some nextpos =>
          piece ← substr str lastpos nextpos;
          split_loop fuel' str delimiter
                     (nextpos + size delimiter)%nat (result ++ [piece])
      | None =>
          piece ← substr_to_end str lastpos;
          Ok (result ++ [piece])
      end
  end.

(** [split_string(str, delimiter)].  Every iteration but the last moves
    [lastpos] forward by at least the delimiter's length, so for a
    non-empty delimiter [size str + 1] iterations are enough. *)
Definition split_string (str delimiter : string) : outcome (list string) :=
  split_loop (S (size str)) str delimiter 0 [].

(** Joining with a separator, the inverse a splitter is expected to have. *)
Fixpoint join (sep : string) (pieces : list string) : string :=
  match pieces with
  | [] => EmptyString
  | [p] => p
  | p :: rest => (p ++ sep ++ join sep rest)%string
  end.

End Conf.


(** ** [multicast_group.hpp]: the message header *)

Module Header.

(** The integer types the struct is declared with. *)
Inductive ctype : Type := uint8_t | int32_t | uint32_t | uint64_t.

Definition bits (t : ctype) : Z :=
  match t with
  | uint8_t => 8
  | int32_t | uint32_t => 32
  | uint64_t => 64
  end.

Definition is_signed (t : ctype) : bool :=
  match t with int32_t => true | _ => false end.

Definition sizeof (t : ctype) : Z := bits t / 8.

Record field : Type := Field { fname : string; ftype : ctype }.

(** [struct __attribute__((__packed__)) header], member by member. *)
Definition header : list field :=
  [ Field "header_size" uint32_t;
    Field "index" int32_t;
    Field "timestamp" uint64_t;
    Field "num_nulls" uint32_t;
    Field "cooked_send" uint8_t;
    Field "resv_b1" uint8_t;
    Field "resv_b2" uint8_t;
    Field "resv_b3" uint8_t;
    Field "resv_q4" uint64_t ].

(** A packed struct has no padding: each member starts where the one
    before it ends, and the struct ends with its last member. *)
Fixpoint packed_offsets (start : Z) (fs : list field) : list (string * Z) :=
  match fs with
  | [] => []
  | f :: rest => (fname f, start) :: packed_offsets (start + sizeof (ftype f)) rest
  end.

Fixpoint packed_sizeof (fs : list field) : Z :=
  match fs with
  | [] => 0
  | f :: rest => sizeof (ftype f) + packed_sizeof rest
  end.

(** [sizeof(header)] *)
Definition sizeof_header : Z := packed_sizeof header.

(** The header is "the first sizeof(header) bytes in the message's data
    buffer"; what follows it is the payload. *)
Definition payload_offset : Z := 0 + sizeof_header.

End Header.

(** ** [multicast_group.hpp]: [DerechoParams] *)

Module Params.
Import Header.

(** [rdmc::send_algorithm] *)
Inductive send_algorithm : Type :=
| BINOMIAL_SEND | CHAIN_SEND | SEQUENTIAL_SEND | TREE_SEND.

Record DerechoParams : Type := mkDerechoParams {
  max_msg_size : Z;               (* uint64_t *)
  max_reply_msg_size : Z;         (* uint64_t *)
  sst_max_msg_size : Z;           (* uint64_t *)
  block_size : Z;                 (* uint64_t *)
  window_size : Z;                (* unsigned int *)
  heartbeat_ms : Z;               (* unsigned int *)
  rdmc_send_algorithm : send_algorithm;
  state_transfer_port : Z         (* uint32_t *)
}.

(** [DerechoParams::compute_max_msg_size].  All arithmetic is on
    [uint64_t]; dividing by a zero [block_size] is undefined. *)
Definition compute_max_msg_size (max_payload_size block_size : Z)
           (using_rdmc : bool) : outcome Z :=
  let max_msg_size := wrap64 (max_payload_size + sizeof_header) in
  if using_rdmc then
    if block_size =? 0 then Undefined
    else if negb (max_msg_size mod block_size =? 0)
         then Ok (wrap64 (wrap64 (max_msg_size / block_size + 1) * block_size))
         else Ok max_msg_size
  else Ok max_msg_size.

(** The message of the string thrown for an unknown algorithm name. *)
Definition wrong_value_message (s : string) : string :=
  ("wrong value for RDMC send algorithm: " ++ s ++ ". Check your config file.")%string.

(** [DerechoParams::send_algorithm_from_string] *)
Definition send_algorithm_from_string (rdmc_send_algorithm_string : string)
  : outcome send_algorithm :=
  if String.eqb rdmc_send_algorithm_string "binomial_send" then
    Ok BINOMIAL_SEND
  else if String.eqb rdmc_send_algorithm_string "chain_send" then
    Ok CHAIN_SEND
  else if String.eqb rdmc_send_algorithm_string "sequential_send" then
    Ok SEQUENTIAL_SEND
  else if String.eqb rdmc_send_algorithm_string "tree_send" then
    Ok TREE_SEND
  else
    Throw (thrown_string (wrong_value_message rdmc_send_algorithm_string)).

(** The eight-argument constructor [DerechoParams::DerechoParams]. *)
Definition make_DerechoParams
           (max_payload_size max_reply_payload_size max_smc_payload_size : Z)
           (block_size window_size heartbeat_ms : Z)
           (rdmc_send_algorithm : send_algorithm)
           (state_transfer_port : Z) : outcome DerechoParams :=
  max_msg_size ← compute_max_msg_size max_payload_size block_size
                   (max_smc_payload_size <? max_payload_size);
  Ok {| max_msg_size := max_msg_size;
        max_reply_msg_size := wrap64 (max_reply_payload_size + sizeof_header);
        sst_max_msg_size := wrap64 (max_smc_payload_size + sizeof_header);
        block_size := block_size;
        window_size := window_size;
        heartbeat_ms := heartbeat_ms;
        rdmc_send_algorithm := rdmc_send_algorithm;
        state_transfer_port := state_transfer_port |}.

(** [y] is the least multiple of [b] that is at least [x]. *)
Definition least_multiple_from (b x y : Z) : Prop :=
  (b | y) /\ x <= y /\ forall z, (b | z) -> x <= z -> y <= z.

(** How a failed provisioning attempt is reported throughout the code
    base: by throwing [subgroup_provisioning_exception]. *)
Definition provisioning_failure {A : Type} (o : outcome A) : Prop :=
  o = Throw subgroup_provisioning_exception.

End Params.


(** ** [latency_test.cpp] *)

Module LatencyTest.

Definition node_id_t : Type := Z.

(** [derecho::Mode] *)
Inductive Mode : Type := ORDERED | UNORDERED.

(** Modelled from the spec: the [SubView] and [View] classes are declared
    outside the sources at hand.  Section 3 of the specification gives a
    shard's subview its members, its sender flags ("same length as
    members; 1 means this member produces messages") and its delivery
    mode; a view has its ordered members.  [next_unassigned_rank] is the
    one other field of [View] the experiment writes. *)
Record SubView : Type := mkSubView {
  mode : Mode;
  members : list node_id_t;
  is_sender : list Z
}.

Record View : Type := mkView {
  view_members : list node_id_t;
  next_unassigned_rank : Z
}.

(** [subgroup_shard_layout_t]: for each subgroup the list of its shards. *)
Definition subgroup_shard_layout_t : Type := list (list SubView).

(** Modelled from the spec: [View::make_subview] is defined outside the
    sources at hand.  It builds the subview of the given members; "a call
    to make_subview without the sender information defaults to all
    members sending". *)
Definition make_subview (with_members : list node_id_t) (mode : Mode)
           (is_sender : option (list Z)) : SubView :=
  {| mode := mode;
     members := with_members;
     is_sender := match is_sender with
                  | Some flags => flags
                  | None => replicate (length with_members) 1
                  end |}.

(** [is_sender[i] = 0] on a [std::vector<int>]: indexing past the end is
    undefined. *)
Definition clear_flag (is_sender : list Z) (i : Z) : outcome (list Z) :=
  if i <? Z.of_nat (length is_sender)
  then Ok (<[Z.to_nat i := 0]> is_sender)
  else Undefined.

(** [for(uint i = 0; continue_at i; ++i) is_sender[i] = 0;] with the
    32-bit counter [i].  Each in-range iteration clears one more flag, so
    a loop that is still running after [length is_sender + 1] rounds has
    wrapped its counter and never ends. *)
Fixpoint clear_loop (fuel : nat) (continue_at : Z -> bool) (i : Z)
         (is_sender : list Z) : outcome (list Z) :=
  match fuel with
  | O => OutOfFuel
  | S fuel' =>
      if continue_at i then
        is_sender' ← clear_flag is_sender i;
        clear_loop fuel' continue_at (wrap32 (i + 1)) is_sender'
      else Ok is_sender
  end.

Section Experiment.
(** Command-line arguments and constants of [main], captured by the two
    lambdas. *)
Variable num_nodes : Z.              (* uint32_t *)
Variable num_senders_selector : Z.   (* const uint32_t *)
Variable delivery_mode : Mode.
Variable num_messages : Z.           (* uint32_t, 1000 in main *)
Variable my_id : Z.                  (* uint32_t *)

(** The lambda [membership_function]; the view is passed by reference
    and handed back with the layout. *)
Definition membership_function (curr_view : View)
  : outcome (subgroup_shard_layout_t * View) :=
  let subgroup_vector : subgroup_shard_layout_t := [ [] ] in
  let num_members := Z.of_nat (length (view_members curr_view)) in   (* size_t *)
  if num_members <? num_nodes then Throw subgroup_provisioning_exception
  else
    shard ←
      (if num_senders_selector =? 0 then
         Ok (make_subview (view_members curr_view) delivery_mode None)
       else
         let is_sender := replicate (Z.to_nat num_members) 1 in
         is_sender' ←
           (if num_senders_selector =? 1 then
              clear_loop (S (length is_sender))
                         (fun i => i <=? wrap64 (num_members - 1) / 2)
                         0 is_sender
            else
              clear_loop (S (length is_sender))
                         (fun i => i <? wrap64 (num_members - 1))
                         0 is_sender);
         Ok (make_subview (view_members curr_view) delivery_mode
                          (Some is_sender')));
    Ok (alter (fun shards => shards ++ [shard]) 0%nat subgroup_vector,
        {| view_members := view_members curr_view;
           next_unassigned_rank :=
             Z.of_nat (length (view_members curr_view)) |}).

(** The mutable state of the lambda [stability_callback]: its two
    by-value captures and the two variables of [main] it writes. *)
Record callback_state : Type := mkCallbackState {
  num_delivered : Z;        (* unsigned int *)
  time_index : Z;           (* unsigned int *)
  end_times : list Z;       (* vector<uint64_t>, num_messages long *)
  done : bool               (* volatile bool *)
}.

Definition callback_init : callback_state :=
  {| num_delivered := 0;
     time_index := 0;
     end_times := replicate (Z.to_nat num_messages) 0;
     done := false |}.

(** One upcall of [stability_callback] for a message of [sender_id];
    [now] is what [get_time()] returns during it. *)
Definition stability_callback (st : callback_state) (sender_id now : Z)
  : outcome callback_state :=
  let num_delivered' := wrap32 (num_delivered st + 1) in
  timing ←
    (if sender_id =? my_id then
       if time_index st <? Z.of_nat (length (end_times st))
       then Ok (wrap32 (time_index st + 1),
                <[Z.to_nat (time_index st) := now]> (end_times st))
       else Undefined
     else Ok (time_index st, end_times st));
  let done' :=
    if num_senders_selector =? 0 then
      if num_delivered' =? wrap32 (num_messages * num_nodes)
      then true else done st
    else if num_senders_selector =? 1 then
      if num_delivered' =? wrap32 (num_messages * (num_nodes / 2))
      then true else done st
    else
      if num_delivered' =? num_messages then true else done st in
  Ok {| num_delivered := num_delivered';
        time_index := fst timing;
        end_times := snd timing;
        done := done' |}.

(** The upcalls of a whole run, one [(sender_id, now)] per delivery. *)
Fixpoint deliver_all (st : callback_state) (deliveries : list (Z * Z))
  : outcome callback_state :=
  match deliveries with
  | [] => Ok st
  | (sender_id, now) :: rest =>
      st' ← stability_callback st sender_id now;
      deliver_all st' rest
  end.

End Experiment.

(** How many leading members of a view of [n] the selector makes
    non-senders: none, those of rank up to [(n - 1) / 2], or all but
    the last. *)
Definition non_senders (num_senders_selector : Z) (n : nat) : nat :=
  if num_senders_selector =? 0 then 0%nat
  else if num_senders_selector =? 1 then S ((n - 1) / 2)
  else (n - 1)%nat.

(** The flags with the first [k] of [n] members cleared. *)
Definition flags_after (k n : nat) : list Z :=
  replicate k 0 ++ replicate (n - k) 1.

(** The count of deliveries that the callback compares with, by
    selector. *)
Definition delivery_target (num_nodes num_senders_selector num_messages : Z) : Z :=
  if num_senders_selector =? 0 then wrap32 (num_messages * num_nodes)
  else if num_senders_selector =? 1 then wrap32 (num_messages * (num_nodes / 2))
  else num_messages.

(** The deliveries a node counts as its own. *)
Definition own_deliveries (my_id : Z) (deliveries : list (Z * Z)) : nat :=
  length (filter (fun d => fst d = my_id) deliveries).

End LatencyTest.


(** ** [derecho_sst.hpp]: the view-change counters of [DerechoSST] *)

Module SST.









End SST.

(** ** The round-robin order of sequence numbers *)

Module Order.

(** From the comment on [DerechoSST::seq_num]: "(sender, index) becomes
    sender + num_members * index", the count being that of the
    senders. *)
Definition seq_of (k sender index : nat) : nat := (sender + k * index)%nat.

(** Modelled from the spec: the delivery code is not among the sources at
    hand.  Step 1 of the delivery predicate computes
    "(sender, sender_index) = (seq mod k, seq div k)". *)
Definition sender_of (k seq : nat) : nat * nat :=
  ((seq mod k)%nat, (seq / k)%nat).

(** The round-robin interleaving spelled out, as in the comment on
    [seq_num]: "with 4 senders, we expect to receive (0,0), (1,0), (2,0),
    (3,0), (0,1), (1,1), ...": round after round, and within a round
    sender after sender. *)
Definition one_round (k index : nat) : list (nat * nat) :=
  map (fun sender => (sender, index)) (seq 0 k).

Definition round_robin (k rounds : nat) : list (nat * nat) :=
  flat_map (one_round k) (seq 0 rounds).

End Order.

(** ** Waiting for the global persistence frontier *)

Module Frontier.

(** What a waiter sees each time it looks: the minimum persisted version
    of the subgroup's shard and whether the group is shutting down. *)
Record observation : Type := mkObservation {
  minimum_persisted_version : Z;
  thread_shutdown : bool
}.

(** The end of a wait over finitely many observations. *)
Inductive wait_result : Type :=
| Returned (value : bool) (waited : nat)   (* after [waited] further looks *)
| StillWaiting.

(** The condition-variable wait: look, return or sleep, look again. *)
Fixpoint wait_loop (version : Z) (seen : list observation) (waited : nat)
  : wait_result :=
  match seen with
  | [] => StillWaiting
  | o :: later =>
      if thread_shutdown o then Returned false waited
      else if version <=? minimum_persisted_version o then Returned true waited
      else wait_loop version later (S waited)
  end.

(** Modelled from the spec: [MulticastGroup::wait_for_global_persistence_frontier]
    is only declared in the sources at hand.  Its comment and sections 4.2,
    5 and 7 of the specification: a version greater than the latest
    delivered one makes the call "return immediately with a false return
    value"; waiters return false when the group shuts down; "otherwise,
    wait if necessary and return true".  [delivered_version] is the
    latest delivered version of the subgroup at the call, [seen] what
    the waiter observes from then on. *)
Definition wait_for_global_persistence_frontier
           (delivered_version version : Z) (seen : list observation)
  : wait_result :=
  if delivered_version <? version then Returned false 0
  else wait_loop version seen 0.

(** A look that neither sees the shutdown flag nor a frontier that has
    reached the version leaves the waiter asleep. *)
Definition keeps_waiting (version : Z) (o : observation) : Prop :=
  thread_shutdown o = false /\ minimum_persisted_version o < version.

End Frontier.

(** ** [conf.cpp]: [getAbsoluteFilePath] *)

Module ConfPaths.
Import StdString.

(** [s.at(i)]: the character at [i], [std::out_of_range] past the end. *)
Definition at_ (s : string) (i : nat) : outcome ascii :=
  match String.get i s with
  | Some c => Ok c
  | None => Throw out_of_range
  end.

(** [s.find_last_of(c)]: the last position that holds [c], [None] for
    [npos]. *)
Fixpoint find_last_of (s : string) (c : ascii) : option nat :=
  match s with
  | EmptyString => None
  | String a s' =>
      match find_last_of s' c with
      | Some k => Some (S k)
      | None => if Ascii.eqb a c then Some O else None
      end
  end.

(** [getAbsoluteFilePath(filename)]; [conf_file_env] is what
    [std::getenv("DERECHO_CONF_FILE")] returns, [None] for a null
    pointer. *)
Definition getAbsoluteFilePath (conf_file_env : option string)
           (filename : string) : outcome string :=
  if (0 <? size filename)%nat then
    first ← at_ filename 0;
    if negb (Ascii.eqb first "/") then
      match conf_file_env with
      | Some conf_file =>
          match find_last_of conf_file "/" with
          | None => Ok filename
          | Some last_slash =>
              path_prefix ← substr conf_file 0 last_slash;
              Ok (path_prefix ++ "/" ++ filename)%string
          end
      | None => Ok filename
      end
    else Ok filename
  else Ok filename.

(** A path is absolute when it starts with a slash. *)
Definition is_absolute (path : string) : bool :=
  match path with
  | String c _ => Ascii.eqb c "/"
  | EmptyString => false
  end.

(** Does the character occur in the string? *)
Fixpoint has_char (c : ascii) (s : string) : bool :=
  match s with
  | EmptyString => false
  | String a s' => Ascii.eqb a c || has_char c s'
  end.

End ConfPaths.

(** ** [smart_membership_function_test.cpp]: the [Cache] object *)

Module CacheTest.

(** The field [cache_map], a [std::map<std::string, std::string>]. *)
Abbreviation Cache := (gmap string string).

(** [Cache::Cache()] *)
Definition Cache_new : Cache := ∅.

(** [Cache::put]: [cache_map[key] = value]. *)
Definition put (key value : string) (cache_map : Cache) : Cache :=
  <[key := value]> cache_map.

(** [Cache::get]: [return cache_map[key]].  [operator[]] on a [std::map]
    inserts a value-initialised entry when the key is missing, so the call
    hands back the map it leaves behind as well. *)
Definition get (key : string) (cache_map : Cache) : string * Cache :=
  match cache_map !! key with
  | Some value => (value, cache_map)
  | None => (EmptyString, <[key := EmptyString]> cache_map)
  end.

(** [Cache::contains] *)
Definition contains (key : string) (cache_map : Cache) : bool :=
  match cache_map !! key with
  | Some _ => true
  | None => false
  end.

(** [Cache::invalidate] *)
Definition invalidate (key : string) (cache_map : Cache) : bool * Cache :=
  match cache_map !! key with
  | None => (false, cache_map)
  | Some _ => (true, delete key cache_map)
  end.

End CacheTest.

(** ** Senders of a shard: [get_num_senders] and the sending nodes of the
       latency experiment *)

Module Senders.

(** [MulticastGroup::get_num_senders]: counts the non-zero flags in a
    [uint32_t]. *)
Definition get_num_senders (shard_senders : list Z) : Z :=
  foldl (fun num i => if i =? 0 then num else wrap32 (num + 1)) 0 shard_senders.

(** The guard around [send_all()] in [main] of latency_test.cpp (the same
    condition selects the nodes that compute a latency): does the node of
    rank [my_rank] send?  [num_nodes] and [my_rank] are [uint32_t]. *)
Definition sends_all (num_senders_selector num_nodes my_rank : Z) : bool :=
  if num_senders_selector =? 0 then true
  else if num_senders_selector =? 1 then wrap32 (num_nodes - 1) / 2 <? my_rank
  else my_rank =? wrap32 (num_nodes - 1).

End Senders.

(** ** [group.hpp]: [index_of_type] *)

Module TypeIndex.

Section Pack.
(** The types of a template parameter pack, compared by [std::is_same]. *)
Context {T : Type} `{EqDecision T}.

(** [index_of_type_impl<counter, TargetType, FirstType, RestTypes...>()].
    The template needs a [FirstType]: with nothing left to look at it
    cannot be instantiated, which is [None] here. *)
Fixpoint index_of_type_impl (counter : Z) (TargetType : T) (pack : list T)
  : option Z :=
  match pack with
  | [] => None
  | FirstType :: RestTypes =>
      if decide (TargetType = FirstType) then Some counter
      else index_of_type_impl (wrap32 (counter + 1)) TargetType RestTypes
  end.

(** [index_of_type<TargetType, TypePack...>] *)
Definition index_of_type (TargetType : T) (TypePack : list T) : option Z :=
  index_of_type_impl 0 TargetType TypePack.

End Pack.

End TypeIndex.

(** ** [conf.cpp]: loading the configuration *)

Module ConfLoad.

(** What the code uses of a [getpot::GetPot] parser of a file: the names
    of its variables and [file_parser(key, "")], the value of one. *)
Record GetPot : Type := mkGetPot {
  get_variable_names : list string;
  value : string -> string
}.

(** What one call of [getopt_long] returns in the loop of the
    constructor: 0 with the index of a long option and its argument, ['?']
    for an option it does not know, or another code. *)
Inductive getopt_return : Type :=
| long_option (option_index : nat) (optarg : string)
| unrecognized
| other_code (c : Z).

(** [S_ISREG(m)]: [(m & S_IFMT) == S_IFREG]. *)
Definition S_IFMT : Z := 61440.      (* 0170000 *)
Definition S_IFREG : Z := 32768.     (* 0100000 *)
Definition S_IRUSR : Z := 256.       (* 0400 *)
Definition S_ISREG (st_mode : Z) : bool := Z.land st_mode S_IFMT =? S_IFREG.

(** The test both file checks apply to a mode:
    [S_ISREG(st_mode) && (S_IRUSR | st_mode)]. *)
Definition regular_and_readable (st_mode : Z) : bool :=
  S_ISREG st_mode && negb (Z.lor S_IRUSR st_mode =? 0).

(** What the loop
    [while(flag != CONF_INITIALIZED) Conf::initialize(0, empty_arg, nullptr)]
    of [loadExtraFile] ends with: the configuration of the initialised
    singleton, or the exception that [Conf::initialize] lets out of its
    checks of the configuration. *)
Inductive initialize_result : Type :=
| initialized (config : gmap string string)
| initialize_throws (what : string).

(** What [loadExtraFile] ends with: the configuration of the singleton
    after the file is loaded, its own [std::runtime_error], or the
    exception of [Conf::initialize]. *)
Inductive load_result : Type :=
| Loaded (config : gmap string string)
| runtime_error (what : string)
| exception_of_initialize (what : string).

Section Loading.
(** [getpot::GetPot file_parser(file_name)]: the parser of a file. *)
Variable parse : string -> GetPot.
(** [long_options[option_index].name]; the names in the table are macros
    of conf.hpp. *)
Variable long_option_name : nat -> string.
(** [std::getenv] and [stat], the latter giving [st_mode] when it
    succeeds. *)
Variable getenv : string -> option string.
Variable stat : string -> option Z.

(** [Conf::loadFromFile]: every variable of the file is written into
    [config]. *)
Definition loadFromFile (config : gmap string string) (file_name : string)
  : gmap string string :=
  foldl (fun config key => <[key := value (parse file_name) key]> config)
        config (get_variable_names (parse file_name)).

(** One round of the [getopt_long] loop; the flag is
    [command_options_present]. *)
Definition take_option (state : gmap string string * bool) (c : getopt_return)
  : gmap string string * bool :=
  match c with
  | long_option option_index optarg =>
      (<[long_option_name option_index := optarg]> (fst state), true)
  | unrecognized => state
  | other_code _ => state
  end.

(** [Conf::Conf]: [defaults] is the configuration the member initialiser
    of conf.hpp starts with, [parsed_args] what [getopt_long] returns
    before it returns -1.  The result is the configuration and whether the
    warning about missing options is printed. *)
Definition Conf_new (defaults : gmap string string)
           (parsed_args : list getopt_return)
           (group_conf_file node_conf_file : option string)
  : gmap string string * bool :=
  let config :=
    match group_conf_file with
    | Some file => loadFromFile defaults file
    | None => defaults
    end in
  let config :=
    match node_conf_file with
    | Some file => loadFromFile config file
    | None => config
    end in
  let '(config, command_options_present) :=
    foldl take_option (config, false) parsed_args in
  (config,
   match group_conf_file, node_conf_file with
   | None, None => negb command_options_present
   | _, _ => false
   end).

(** The first part of [Conf::loadExtraFile]: the value of its local
    [real_file_name] after the two file tests; [env_var_name] is [None]
    for a null pointer. *)
Definition loadExtraFile_real_file_name
           (default_file_name : string) (env_var_name : option string)
  : string :=
  let real_file_name :=
    match env_var_name with
    | Some name =>
        match getenv name with
        | Some env_filename =>
            match stat env_filename with
            | Some st_mode =>
                if regular_and_readable st_mode then env_filename
                else EmptyString
            | None => EmptyString
            end
        | None => EmptyString
        end
    | None => EmptyString
    end in
  if String.eqb real_file_name EmptyString then
    match stat default_file_name with
    | Some st_mode =>
        if regular_and_readable st_mode then default_file_name
        else real_file_name
    | None => real_file_name
    end
  else real_file_name.

(** The last part of [Conf::loadExtraFile]: the initialisation loop, and
    [singleton->loadFromFile(real_file_name)] when the loop ends without
    an exception. *)
Definition initialize_and_load (singleton : initialize_result)
           (real_file_name : string) : load_result :=
  match singleton with
  | initialize_throws what => exception_of_initialize what
  | initialized config => Loaded (loadFromFile config real_file_name)
  end.

(** [Conf::loadExtraFile]; [singleton] is what the initialisation loop
    would end with. *)
Definition loadExtraFile (singleton : initialize_result)
           (default_file_name : string) (env_var_name : option string)
  : load_result :=
  let real_file_name :=
    loadExtraFile_real_file_name default_file_name env_var_name in
  if String.eqb real_file_name EmptyString then
    runtime_error ("Could not open configuration file " ++ default_file_name)
  else initialize_and_load singleton real_file_name.

End Loading.

(** The same as a test. *)
Definition is_regular_file (stat : string -> option Z) (file_name : string) : bool :=
  match stat file_name with
  | Some st_mode => S_ISREG st_mode && negb (String.eqb file_name EmptyString)
  | None => false
  end.

(** A file that exists, is a regular file and has a name. *)
Definition regular_file (stat : string -> option Z) (file_name : string) : Prop :=
  file_name <> EmptyString
  /\ exists st_mode, stat file_name = Some st_mode /\ S_ISREG st_mode = true.

(** The last argument given on the command line for an option name. *)
Fixpoint last_optarg (long_option_name : nat -> string) (key : string)
         (parsed_args : list getopt_return) : option string :=
  match parsed_args with
  | [] => None
  | c :: later =>
      match last_optarg long_option_name key later with
      | Some optarg => Some optarg
      | None =>
          match c with
          | long_option option_index optarg =>
              if String.eqb (long_option_name option_index) key
              then Some optarg else None
          | _ => None
          end
      end
  end.

End ConfLoad.

(** ** [multicast_group.hpp]: [DerechoParams::from_profile] *)

Module Profile.
Import Params.

(** [Conf::subgroupProfileFields] of conf.cpp *)
Definition subgroupProfileFields : list string :=
  [ "max_payload_size"; "max_reply_payload_size"; "max_smc_payload_size";
    "block_size"; "window_size"; "rdmc_send_algorithm" ]%string.

(** [Conf::subgroupProfileFields[i]], for the indices 0 to 5 the code
    uses. *)
Definition field (i : nat) : string := nth i subgroupProfileFields EmptyString.

Section Configuration.
(** The configuration getters of conf.hpp and the two key names
    [Conf::DERECHO_HEARTBEAT_MS] and [Conf::DERECHO_STATE_TRANSFER_PORT].
    A getter stands for the value it returns for a key; conf.hpp is not
    among the sources at hand, and a call in which a getter throws
    instead of returning is not described. *)
Variable hasCustomizedConfKey : string -> bool.
Variable getConfUInt64 : string -> Z.
Variable getConfUInt32 : string -> Z.
Variable getConfString : string -> string.
Variable DERECHO_HEARTBEAT_MS : string.
Variable DERECHO_STATE_TRANSFER_PORT : string.

(** The [for] loop over the fields: the first key that is not in the
    configuration, if there is one. *)
Fixpoint first_missing (prefix : string) (fields : list string) : option string :=
  match fields with
  | [] => None
  | f :: rest =>
      if negb (hasCustomizedConfKey (prefix ++ f)) then Some (prefix ++ f)%string
      else first_missing prefix rest
  end.

(** [DerechoParams::from_profile]: what it writes to [std::cout] and how
    it ends. *)
Definition from_profile (profile : string)
  : list string * outcome DerechoParams :=
  let prefix := ("SUBGROUP/" ++ profile ++ "/")%string in
  match first_missing prefix subgroupProfileFields with
  | Some key =>
      ([ ("key" ++ key
          ++ " not found in SUBGROUP section of derecho conf. "
          ++ " Look at derecho-sample.cfg for more information.")%string ],
       Throw (thrown_string (profile ++ " derecho subgroup profile not found")))
  | None =>
      let max_payload_size := getConfUInt64 (prefix ++ field 0) in
      let max_reply_payload_size := getConfUInt64 (prefix ++ field 1) in
      let max_smc_payload_size := getConfUInt64 (prefix ++ field 2) in
      let block_size := getConfUInt64 (prefix ++ field 3) in
      let window_size := getConfUInt32 (prefix ++ field 4) in
      let timeout_ms := getConfUInt32 DERECHO_HEARTBEAT_MS in
      let algorithm := getConfString (prefix ++ field 5) in
      let state_transfer_port := getConfUInt32 DERECHO_STATE_TRANSFER_PORT in
      ([],
       algorithm' ← send_algorithm_from_string algorithm;
       make_DerechoParams max_payload_size max_reply_payload_size
                          max_smc_payload_size block_size window_size
                          timeout_ms algorithm' state_transfer_port)
  end.

End Configuration.

End Profile.

(** ** The split [split_string] is meant to compute *)

Module ConfReference.
Import StdString.

(** The loop of [split_string] with the length [nextpos - lastpos] where
    the code passes [nextpos]: the pieces between the delimiters. *)
Fixpoint segments_loop (fuel : nat) (str delimiter : string)
         (lastpos : nat) (result : list string) : outcome (list string) :=
  match fuel with
  | O => OutOfFuel
  | S fuel' =>
      match find str delimiter lastpos with
      | Some nextpos =>
          piece ← substr str lastpos (nextpos - lastpos);
          segments_loop fuel' str delimiter
                        (nextpos + size delimiter)%nat (result ++ [piece])
      | None =>
          piece ← substr_to_end str lastpos;
          Ok (result ++ [piece])
      end
  end.

Definition segments (str delimiter : string) : outcome (list string) :=
  segments_loop (S (size str)) str delimiter 0 [].

(** [piece] begins with [segment]. *)
Definition begins_with (piece segment : string) : Prop :=
  exists extra, piece = (segment ++ extra)%string.

End ConfReference.

(** * Properties *)

(** ** Machine integers *)

Lemma wrap32_small z : is_uint32 z -> wrap32 z = z.
Proof. intros H. apply Z.mod_small, H. Qed.

Lemma wrap64_small z : is_uint64 z -> wrap64 z = z.
Proof. intros H. apply Z.mod_small, H. Qed.

Lemma wrap32_range z : is_uint32 (wrap32 z).
Proof. apply Z.mod_pos_bound. reflexivity. Qed.

Lemma wrap64_range z : is_uint64 (wrap64 z).
Proof. apply Z.mod_pos_bound. reflexivity. Qed.

(** ** The message header *)

Section HeaderLayout.
Import Header.

(** C4: the packed [header] record has, in this order, a 32-bit unsigned
    [header_size], a 32-bit signed [index], a 64-bit unsigned [timestamp],
    a 32-bit unsigned [num_nulls], an 8-bit [cooked_send], three reserved
    bytes and a reserved 64-bit word; without padding these occupy offsets
    0, 4, 8, 16, 20, 21, 22, 23 and 24, the record is exactly 32 bytes
    long, and the payload starts right behind it, at offset 32. *)
Theorem header_layout :
  map (fun f => (fname f, bits (ftype f), is_signed (ftype f))) header =
    [ ("header_size"%string, 32, false);
      ("index"%string, 32, true);
      ("timestamp"%string, 64, false);
      ("num_nulls"%string, 32, false);
      ("cooked_send"%string, 8, false);
      ("resv_b1"%string, 8, false);
      ("resv_b2"%string, 8, false);
      ("resv_b3"%string, 8, false);
      ("resv_q4"%string, 64, false) ]
  /\ map snd (packed_offsets 0 header) = [0; 4; 8; 16; 20; 21; 22; 23; 24]
  /\ sizeof_header = 32
  /\ payload_offset = 32.
Proof. repeat split; reflexivity. Qed.

(** The offsets of a packed record and its size fit together: a member
    appended to a record starts at the record's size. *)
Lemma packed_offsets_app start fs gs :
  packed_offsets start (fs ++ gs) =
    packed_offsets start fs ++ packed_offsets (start + packed_sizeof fs) gs.
Proof.
  revert start. induction fs as [|f fs IH]; intros start; simpl.
  - by rewrite Z.add_0_r.
  - rewrite IH. do 3 f_equal. lia.
Qed.

End HeaderLayout.

(** ** [DerechoParams] *)

Section ParamsFacts.
Import Header Params.

Lemma sizeof_header_32 : sizeof_header = 32.
Proof. reflexivity. Qed.

(** Rounding up to the block size, as [compute_max_msg_size] does it,
    yields the least multiple that is large enough. *)
Lemma round_up_least x b :
  0 <= x -> 0 < b -> x mod b <> 0 ->
  least_multiple_from b x ((x / b + 1) * b).
Proof.
  intros Hx Hb Hrem. pose proof (Z.div_mod x b ltac:(lia)) as Hdiv.
  pose proof (Z.mod_pos_bound x b Hb) as Hmod.
  repeat split.
  - exists (x / b + 1). reflexivity.
  - nia.
  - intros z [q ->] Hz.
    assert (x / b < q) by nia. nia.
Qed.

Lemma exact_multiple_least x b :
  0 < b -> x mod b = 0 -> least_multiple_from b x x.
Proof.
  intros Hb Hrem. repeat split; [|lia|tauto].
  exists (x / b). pose proof (Z.div_mod x b ltac:(lia)). lia.
Qed.

Lemma compute_max_msg_size_slot p b :
  is_uint64 (p + 32) ->
  compute_max_msg_size p b false = Ok (p + 32).
Proof.
  intros Hp. unfold compute_max_msg_size. rewrite sizeof_header_32.
  by rewrite wrap64_small.
Qed.

Lemma compute_max_msg_size_block p b :
  0 <= p -> 0 < b ->
  (exists z, (b | z) /\ p + 32 <= z < 2 ^ 64) ->
  exists r, compute_max_msg_size p b true = Ok r
            /\ least_multiple_from b (p + 32) r.
Proof.
  intros Hp Hb (z & Hdiv & Hz).
  unfold compute_max_msg_size. rewrite sizeof_header_32.
  rewrite wrap64_small by (unfold is_uint64; lia).
  destruct (Z.eqb_spec b 0) as [->|_]; [lia|].
  destruct (Z.eqb_spec ((p + 32) mod b) 0) as [Hrem|Hrem]; simpl.
  - eexists; split; [reflexivity|]. by apply exact_multiple_least.
  - destruct (round_up_least (p + 32) b) as (Hmul & Hge & Hleast); [lia..|].
    assert ((p + 32) / b + 1 <= z) as Hq.
    { pose proof (Hleast z Hdiv ltac:(lia)). nia. }
    assert (0 <= (p + 32) / b) by (apply Z.div_pos; lia).
    pose proof (Hleast z Hdiv ltac:(lia)).
    rewrite (wrap64_small ((p + 32) / b + 1)) by (unfold is_uint64; lia).
    rewrite wrap64_small by (unfold is_uint64; lia).
    eexists; split; [reflexivity|]. repeat split; assumption.
Qed.

(** C5 (amended): for 64-bit arguments with [block_size > 0], as long as
    the sums [max_smc_payload_size + 32] and [max_payload_size + 32] fit
    in 64 bits and, where the block plane is in use, some multiple of the
    block size that is large enough fits as well, the constructor
    returns with [sst_max_msg_size = max_smc_payload_size + 32], with
    [max_msg_size = max_payload_size + 32] when the payload is at most the
    slot payload, and otherwise with [max_msg_size] the least multiple of
    the block size that is at least [max_payload_size + 32]. *)
Theorem make_DerechoParams_sizes
        (p rp m b w h : Z) (alg : send_algorithm) (port : Z) :
  0 <= p -> 0 <= m -> 0 < b ->
  p + 32 < 2 ^ 64 -> m + 32 < 2 ^ 64 ->
  (m < p -> exists z, (b | z) /\ p + 32 <= z < 2 ^ 64) ->
  exists params,
    make_DerechoParams p rp m b w h alg port = Ok params
    /\ sst_max_msg_size params = m + 32
    /\ (p <= m -> max_msg_size params = p + 32)
    /\ (m < p -> least_multiple_from b (p + 32) (max_msg_size params)).
Proof.
  intros Hp Hm Hb Hp32 Hm32 Hfit. unfold make_DerechoParams.
  assert (wrap64 (m + sizeof_header) = m + 32) as Hsst.
  { rewrite sizeof_header_32. apply wrap64_small. unfold is_uint64. lia. }
  destruct (Z.ltb_spec m p) as [Hlt|Hle].
  - destruct (compute_max_msg_size_block p b Hp Hb (Hfit Hlt)) as (r & -> & Hr).
    eexists; split; [reflexivity|]. simpl. repeat split; try lia; try apply Hr.
  - rewrite compute_max_msg_size_slot by (unfold is_uint64; lia).
    eexists; split; [reflexivity|]. simpl. repeat split; lia.
Qed.

Lemma make_DerechoParams_sizes_witness :
  exists params,
    make_DerechoParams 10240 8192 100 4096 16 1 BINOMIAL_SEND 28366 = Ok params
    /\ sst_max_msg_size params = 100 + 32
    /\ (10240 <= 100 -> max_msg_size params = 10240 + 32)
    /\ (100 < 10240 ->
        least_multiple_from 4096 (10240 + 32) (max_msg_size params)).
Proof.
  apply (make_DerechoParams_sizes 10240 8192 100 4096 16 1 BINOMIAL_SEND 28366);
    try lia.
  intros _. exists 12288. split; [exists 3; reflexivity | lia].
Defined.

(** C5 as stated fails at the top of the 64-bit range: with both payload
    sizes [2^64 - 1] the two sums wrap around to 31. *)
Lemma make_DerechoParams_wraps :
  exists params,
    make_DerechoParams (2 ^ 64 - 1) 0 (2 ^ 64 - 1) 4096 16 1 BINOMIAL_SEND 28366
      = Ok params
    /\ sst_max_msg_size params = 31
    /\ sst_max_msg_size params <> (2 ^ 64 - 1) + 32
    /\ max_msg_size params = 31
    /\ max_msg_size params <> (2 ^ 64 - 1) + 32.
Proof. eexists. split; [reflexivity|]. simpl. repeat split; by vm_compute. Qed.

(** C6 (amended): [send_algorithm_from_string] maps ["binomial_send"],
    ["chain_send"], ["sequential_send"] and ["tree_send"] to
    [BINOMIAL_SEND], [CHAIN_SEND], [SEQUENTIAL_SEND] and [TREE_SEND]; it
    returns a value for no other string, and for every other string it
    throws a bare string, the message "wrong value for RDMC send
    algorithm: <input>. Check your config file.", which is not a
    provisioning failure. *)
Theorem send_algorithm_from_string_cases :
  send_algorithm_from_string "binomial_send" = Ok BINOMIAL_SEND
  /\ send_algorithm_from_string "chain_send" = Ok CHAIN_SEND
  /\ send_algorithm_from_string "sequential_send" = Ok SEQUENTIAL_SEND
  /\ send_algorithm_from_string "tree_send" = Ok TREE_SEND
  /\ forall s : string,
       (returns (send_algorithm_from_string s) <->
          s ∈ ["binomial_send"; "chain_send"; "sequential_send"; "tree_send"]%string)
       /\ (s ∉ ["binomial_send"; "chain_send"; "sequential_send"; "tree_send"]%string ->
             send_algorithm_from_string s = Throw (thrown_string (wrong_value_message s))
             /\ ~ provisioning_failure (send_algorithm_from_string s)).
Proof.
  do 4 (split; [reflexivity|]). intros s.
  unfold send_algorithm_from_string, returns, provisioning_failure.
  rewrite !elem_of_cons, elem_of_nil.
  do 4 (match goal with
        | |- context [String.eqb s ?lit] =>
            destruct (String.eqb_spec s lit) as [->|?];
            [split; [split; [intros _; auto 6 | eauto]
                    | intros H; exfalso; apply H; auto 6] | ]
        end).
  split; [split|].
  - intros [a Ha]. discriminate.
  - intros [?|[?|[?|[?|[]]]]]; contradiction.
  - intros _. split; [reflexivity | discriminate].
Qed.

Lemma send_algorithm_from_string_cases_witness :
  send_algorithm_from_string "multicast_send"
    = Throw (thrown_string (wrong_value_message "multicast_send"))
  /\ ~ provisioning_failure (send_algorithm_from_string "multicast_send").
Proof.
  apply (proj2 (proj2 (proj2 (proj2 (proj2 send_algorithm_from_string_cases)))
                 "multicast_send"%string)).
  rewrite !elem_of_cons, elem_of_nil.
  intros [?|[?|[?|[?|[]]]]]; discriminate.
Defined.

(** C6 as stated fails: an unknown algorithm name is not reported as a
    provisioning failure; what is thrown is a bare string. *)
Lemma send_algorithm_from_string_not_provisioning :
  send_algorithm_from_string "ring_send"
    = Throw (thrown_string
               "wrong value for RDMC send algorithm: ring_send. Check your config file.")
  /\ ~ provisioning_failure (send_algorithm_from_string "ring_send").
Proof. split; [reflexivity | discriminate]. Qed.

End ParamsFacts.

(** ** [split_string] *)

Section SplitString.
Import StdString Conf.

Lemma size_suffix_from pos s : size (suffix_from pos s) = (size s - pos)%nat.
Proof.
  revert s. induction pos as [|pos IH]; intros [|a s]; simpl; done.
Qed.

Lemma starts_with_size d s : starts_with d s = true -> (size d <= size s)%nat.
Proof.
  revert s. induction d as [|a d IH]; intros [|b s]; simpl; try done; try lia.
  destruct (Ascii.eqb a b); [|done]. intros H. apply IH in H. lia.
Qed.

Lemma first_occurrence_fits d s k :
  first_occurrence d s = Some k -> (k + size d <= size s)%nat.
Proof.
  revert k. induction s as [|b s IH]; intros k; simpl.
  - destruct (starts_with d "") eqn:E; [|done].
    intros [= <-]. by apply starts_with_size in E.
  - destruct (starts_with d (String b s)) eqn:E.
    + intros [= <-]. by apply starts_with_size in E.
    + destruct (first_occurrence d s) as [k'|]; [|done].
      intros [= <-]. specialize (IH k' eq_refl). lia.
Qed.

(** A match of [find] lies at or after the start position and inside the
    string. *)
Lemma find_bounds s d pos n :
  find s d pos = Some n -> (pos <= n /\ n + size d <= size s)%nat.
Proof.
  unfold find. destruct (Nat.ltb_spec (size s) pos) as [|Hpos]; [done|].
  destruct (first_occurrence d (suffix_from pos s)) as [k|] eqn:E; [|done].
  intros [= <-]. apply first_occurrence_fits in E.
  rewrite size_suffix_from in E. lia.
Qed.

Lemma split_loop_returns fuel str d lastpos result :
  d <> EmptyString ->
  (lastpos <= size str)%nat ->
  (size str - lastpos < fuel)%nat ->
  returns (split_loop fuel str d lastpos result).
Proof.
  intros Hd. revert lastpos result.
  induction fuel as [|fuel IH]; intros lastpos result Hpos Hfuel; [lia|].
  assert (1 <= size d)%nat as Hsize by (destruct d; [done | simpl; lia]).
  simpl. destruct (find str d lastpos) as [n|] eqn:Hfind.
  - apply find_bounds in Hfind as [Hn Hfit].
    unfold substr. destruct (Nat.ltb_spec (size str) lastpos); [lia|].
    simpl. apply IH; lia.
  - unfold substr_to_end. destruct (Nat.ltb_spec (size str) lastpos); [lia|].
    simpl. by eexists.
Qed.

(** X1: with a non-empty delimiter [split_string] always returns a list:
    the loop ends, and no [substr] starts past the end of the string. *)
Theorem split_string_returns str d :
  d <> EmptyString -> returns (split_string str d).
Proof. intros Hd. apply split_loop_returns; [done | lia | lia]. Qed.

Lemma split_string_returns_witness : returns (split_string "a,b,c" ",").
Proof. apply (split_string_returns "a,b,c" ","). discriminate. Defined.

(** X2: a string in which the delimiter does not occur comes back whole,
    as the only element. *)
Theorem split_string_without_delimiter str d :
  find str d 0 = None -> split_string str d = Ok [str].
Proof.
  intros Hfind. unfold split_string. simpl. rewrite Hfind.
  unfold substr_to_end. simpl. reflexivity.
Qed.

Lemma split_string_without_delimiter_witness :
  split_string "derecho.cfg" "," = Ok ["derecho.cfg"%string].
Proof. apply (split_string_without_delimiter "derecho.cfg" ","). reflexivity. Defined.

(** The first piece is cut correctly: it is the text before the first
    delimiter. *)
Lemma split_string_one_delimiter :
  split_string "key=value" "=" = Ok ["key"; "value"]%string.
Proof. reflexivity. Qed.

(** C10 fails on the code: [substr(lastpos, nextpos)] takes [nextpos]
    characters, not [nextpos - lastpos], so from the second delimiter on
    a piece runs past its delimiter.  On "a,b,c" the result is "a",
    "b,c", "c": the middle element contains the delimiter and joining
    the elements gives "a,b,c,c". *)
Theorem split_string_second_piece_overruns :
  split_string "a,b,c" "," = Ok ["a"; "b,c"; "c"]%string
  /\ contains "b,c" "," = true
  /\ join "," ["a"; "b,c"; "c"]%string = "a,b,c,c"%string
  /\ join "," ["a"; "b,c"; "c"]%string <> "a,b,c"%string.
Proof. repeat split; try reflexivity. discriminate. Qed.

End SplitString.

(** ** The latency experiment *)

Section LatencyFacts.
Import LatencyTest.

(** The loop clears exactly the flags from its counter up to the bound of
    its condition and leaves the others alone. *)
Lemma clear_loop_prefix fuel continue_at (K i : nat) (flags : list Z) :
  (forall j, 0 <= j -> continue_at j = (j <? Z.of_nat K)) ->
  (i <= K)%nat -> (K <= length flags)%nat -> Z.of_nat K < 2 ^ 32 ->
  (K - i < fuel)%nat ->
  clear_loop fuel continue_at (Z.of_nat i) flags
    = Ok (take i flags ++ replicate (K - i) 0 ++ drop K flags).
Proof.
  intros Hcond. revert i flags.
  induction fuel as [|fuel IH]; intros i flags Hi HK H32 Hfuel; [lia|].
  simpl. rewrite Hcond by lia.
  destruct (Z.ltb_spec (Z.of_nat i) (Z.of_nat K)) as [Hlt|Hge].
  - unfold clear_flag.
    destruct (Z.ltb_spec (Z.of_nat i) (Z.of_nat (length flags))); [|lia].
    simpl. rewrite Nat2Z.id.
    replace (wrap32 (Z.of_nat i + 1)) with (Z.of_nat (S i))
      by (rewrite wrap32_small; unfold is_uint32; lia).
    rewrite IH by (rewrite ?length_insert; lia).
    f_equal.
    rewrite (take_S_r _ _ 0) by (apply list_lookup_insert_eq; lia).
    rewrite take_insert_ge by lia.
    rewrite drop_insert_lt by lia.
    replace (K - i)%nat with (S (K - S i)) by lia.
    simpl. by rewrite <- app_assoc.
  - assert (i = K) as -> by lia.
    rewrite Nat.sub_diag. simpl. by rewrite take_drop.
Qed.

Lemma clear_loop_from_zero continue_at (K : nat) (flags : list Z) :
  (forall j, 0 <= j -> continue_at j = (j <? Z.of_nat K)) ->
  (K <= length flags)%nat -> Z.of_nat K < 2 ^ 32 ->
  clear_loop (S (length flags)) continue_at 0 flags
    = Ok (replicate K 0 ++ drop K flags).
Proof.
  intros Hcond HK H32.
  rewrite (clear_loop_prefix _ _ K 0%nat flags Hcond) by lia.
  by rewrite Nat.sub_0_r.
Qed.

(** What [membership_function] returns for a view that is large enough:
    one subgroup with one shard of all the members, the selector deciding
    how many of the lowest ranks do not send. *)
Lemma membership_function_layout num_nodes sel mode view :
  let n := length (view_members view) in
  num_nodes <= Z.of_nat n ->
  (0 < n)%nat -> Z.of_nat n < 2 ^ 32 ->
  membership_function num_nodes sel mode view
    = Ok ([[ {| mode := mode;
                members := view_members view;
                is_sender := flags_after (non_senders sel n) n |} ]],
          {| view_members := view_members view;
             next_unassigned_rank := Z.of_nat n |}).
Proof.
  intros n Hnodes Hpos H32. unfold membership_function.
  fold n. destruct (Z.ltb_spec (Z.of_nat n) num_nodes); [lia|].
  unfold non_senders, flags_after, make_subview.
  rewrite Nat2Z.id.
  assert (wrap64 (Z.of_nat n - 1) = Z.of_nat (n - 1)) as Hw.
  { rewrite wrap64_small; unfold is_uint64; lia. }
  destruct (Z.eqb_spec sel 0) as [->|Hsel0].
  { simpl. by rewrite Nat.sub_0_r. }
  destruct (Z.eqb_spec sel 1) as [->|Hsel1].
  - assert ((n - 1) / 2 < n)%nat as Hhalf.
    { apply Nat.Div0.div_lt_upper_bound. lia. }
    rewrite (clear_loop_from_zero _ (S ((n - 1) / 2)));
      rewrite ?length_replicate; try lia.
    + simpl. rewrite drop_replicate. reflexivity.
    + intros j Hj. rewrite Hw.
      replace (Z.of_nat (n - 1) / 2) with (Z.of_nat ((n - 1) / 2))
        by (rewrite Nat2Z.inj_div; reflexivity).
      destruct (Z.leb_spec j (Z.of_nat ((n - 1) / 2)));
        destruct (Z.ltb_spec j (Z.of_nat (S ((n - 1) / 2)))); lia.
  - rewrite (clear_loop_from_zero _ (n - 1));
      rewrite ?length_replicate; try lia.
    + simpl. rewrite drop_replicate. reflexivity.
    + intros j Hj. by rewrite Hw.
Qed.

(** C9: [membership_function] throws [subgroup_provisioning_exception]
    for every view with fewer members than [num_nodes]; for every view
    with at least [num_nodes] members (a view has at least one member, and
    fewer than 2^32) it returns a layout of exactly one subgroup made of
    one shard whose members are all the members of the view. *)
Theorem membership_function_provisioning num_nodes sel mode view :
  (Z.of_nat (length (view_members view)) < num_nodes ->
     membership_function num_nodes sel mode view
       = Throw subgroup_provisioning_exception)
  /\ (num_nodes <= Z.of_nat (length (view_members view)) ->
      (0 < length (view_members view))%nat ->
      Z.of_nat (length (view_members view)) < 2 ^ 32 ->
      exists flags view',
        membership_function num_nodes sel mode view
          = Ok ([[ {| mode := mode;
                      members := view_members view;
                      is_sender := flags |} ]], view')
        /\ length flags = length (view_members view)
        /\ view_members view' = view_members view).
Proof.
  split.
  - intros Hfew. unfold membership_function.
    by destruct (Z.ltb_spec (Z.of_nat (length (view_members view))) num_nodes);
      [|lia].
  - intros Hnodes Hpos H32.
    rewrite membership_function_layout by assumption.
    eexists _, _. split; [reflexivity|]. split; [|reflexivity].
    unfold flags_after, non_senders.
    rewrite length_app, !length_replicate.
    assert ((length (view_members view) - 1) / 2 < length (view_members view))%nat.
    { apply Nat.Div0.div_lt_upper_bound. lia. }
    destruct (sel =? 0); [lia|]. destruct (sel =? 1); lia.
Qed.

Lemma membership_function_provisioning_witness :
  membership_function 4 2 UNORDERED (mkView [7; 8; 9] 0)
    = Throw subgroup_provisioning_exception
  /\ exists flags view',
       membership_function 4 2 UNORDERED (mkView [6; 7; 8; 9; 10] 0)
         = Ok ([[ {| mode := UNORDERED;
                     members := [6; 7; 8; 9; 10];
                     is_sender := flags |} ]], view')
       /\ length flags = 5%nat
       /\ view_members view' = [6; 7; 8; 9; 10].
Proof.
  split.
  - apply (proj1 (membership_function_provisioning 4 2 UNORDERED (mkView [7; 8; 9] 0))).
    simpl. lia.
  - apply (proj2 (membership_function_provisioning 4 2 UNORDERED
                    (mkView [6; 7; 8; 9; 10] 0))); simpl; lia.
Defined.

(** X3: for a view that is large enough, [membership_function] returns one
    shard in which, rank by rank, a member sends unless its rank is among
    the first [non_senders] ranks: none of them for selector 0, the ranks
    up to [(n - 1) / 2] for selector 1, all but the last otherwise. *)
Theorem membership_function_sender_flags num_nodes sel mode view :
  num_nodes <= Z.of_nat (length (view_members view)) ->
  (0 < length (view_members view))%nat ->
  Z.of_nat (length (view_members view)) < 2 ^ 32 ->
  exists shard view',
    membership_function num_nodes sel mode view = Ok ([[shard]], view')
    /\ forall rank : nat,
         (rank < length (view_members view))%nat ->
         is_sender shard !! rank
           = Some (if (rank <? non_senders sel (length (view_members view)))%nat
                   then 0 else 1).
Proof.
  intros Hnodes Hpos H32.
  rewrite membership_function_layout by assumption.
  eexists _, _. split; [reflexivity|]. intros rank Hrank. simpl.
  unfold flags_after.
  destruct (Nat.ltb_spec rank (non_senders sel (length (view_members view)))).
  - rewrite lookup_app_l by (by rewrite length_replicate).
    by apply lookup_replicate_2.
  - rewrite lookup_app_r by (by rewrite length_replicate).
    rewrite length_replicate. apply lookup_replicate_2. lia.
Qed.

Lemma membership_function_sender_flags_witness :
  exists shard view',
    membership_function 3 1 ORDERED (mkView [21; 22; 23; 24; 25] 0)
      = Ok ([[shard]], view')
    /\ forall rank : nat,
         (rank < 5)%nat ->
         is_sender shard !! rank
           = Some (if (rank <? non_senders 1 5)%nat then 0 else 1).
Proof.
  apply (membership_function_sender_flags 3 1 ORDERED
           (mkView [21; 22; 23; 24; 25] 0)); simpl; lia.
Defined.

(** *** The stability callback *)

Section Callback.
Variables num_nodes sel num_messages my_id : Z.

Local Abbreviation callback := (stability_callback num_nodes sel num_messages my_id).
Local Abbreviation run := (deliver_all num_nodes sel num_messages my_id).
Local Abbreviation target := (delivery_target num_nodes sel num_messages).

(** One upcall counts the delivery and raises [done] when the count
    is the target; it never lowers it. *)
Lemma stability_callback_effect st sender_id now st' :
  callback st sender_id now = Ok st' ->
  num_delivered st' = wrap32 (num_delivered st + 1)
  /\ done st' = (if num_delivered st' =? target then true else done st)
  /\ length (end_times st') = length (end_times st)
  /\ time_index st' =
       (if sender_id =? my_id then wrap32 (time_index st + 1) else time_index st).
Proof.
  unfold stability_callback, delivery_target.
  destruct (sender_id =? my_id).
  - destruct (time_index st <? Z.of_nat (length (end_times st))); [|done].
    simpl. intros [= <-]. simpl. rewrite length_insert.
    repeat split. by destruct (sel =? 0), (sel =? 1).
  - simpl. intros [= <-]. simpl.
    repeat split. by destruct (sel =? 0), (sel =? 1).
Qed.

(** An upcall for another node's message always returns; one for an own
    message returns while [end_times] has a free entry. *)
Lemma stability_callback_returns st sender_id now :
  (sender_id = my_id -> time_index st < Z.of_nat (length (end_times st))) ->
  returns (callback st sender_id now).
Proof.
  intros Hroom. unfold stability_callback.
  destruct (Z.eqb_spec sender_id my_id) as [Hown|_].
  - destruct (Z.ltb_spec (time_index st) (Z.of_nat (length (end_times st))));
      [by eexists | specialize (Hroom Hown); lia].
  - by eexists.
Qed.

(** After [n] deliveries in all, [done] is set exactly if [n] has
    reached the target. *)
Lemma deliver_all_done deliveries : forall st st' (n : nat),
  0 < target < 2 ^ 32 ->
  run st deliveries = Ok st' ->
  num_delivered st = wrap32 (Z.of_nat n) ->
  (done st = true <-> target <= Z.of_nat n) ->
  num_delivered st' = wrap32 (Z.of_nat (n + length deliveries))
  /\ (done st' = true <-> target <= Z.of_nat (n + length deliveries)).
Proof.
  induction deliveries as [|[sender_id now] rest IH];
    intros st st' n Htarget Hrun Hcount Hdone.
  - injection Hrun as <-. by rewrite Nat.add_0_r.
  - simpl in Hrun.
    destruct (callback st sender_id now)
      as [st1| | |] eqn:Hcall; try done.
    apply stability_callback_effect in Hcall as (Hcount1 & Hdone1 & _ & _).
    assert (num_delivered st1 = wrap32 (Z.of_nat (S n))) as Hcount1'.
    { rewrite Hcount1, Hcount. unfold wrap32.
      rewrite Zplus_mod_idemp_l. f_equal. lia. }
    replace (n + length ((sender_id, now) :: rest))%nat
      with (S n + length rest)%nat by (simpl; lia).
    apply (IH st1 st' (S n) Htarget Hrun Hcount1').
    rewrite Hdone1, Hcount1'.
    destruct (Z.eqb_spec (wrap32 (Z.of_nat (S n))) target) as [Heq|Hne].
    + split; [intros _|done].
      rewrite <- Heq. unfold wrap32. apply Z.mod_le; lia.
    + rewrite Hdone. split; [lia|]. intros Hle.
      assert (target <> Z.of_nat (S n)).
      { intros Heq. apply Hne. rewrite Heq in Htarget |- *.
        apply wrap32_small. unfold is_uint32. lia. }
      lia.
Qed.

(** A run returns if [end_times] has room for all the own messages
    among the deliveries. *)
Lemma deliver_all_returns deliveries : forall st (used : nat),
  Z.of_nat (length (end_times st)) < 2 ^ 32 ->
  time_index st = Z.of_nat used ->
  (used + own_deliveries my_id deliveries <= length (end_times st))%nat ->
  returns (run st deliveries).
Proof.
  unfold own_deliveries.
  induction deliveries as [|[sender_id now] rest IH];
    intros st used H32 Hused Hroom.
  - by eexists.
  - simpl.
    rewrite filter_cons in Hroom. simpl in Hroom.
    destruct (stability_callback_returns st sender_id now) as [st1 Hcall].
    { intros ->. rewrite decide_True in Hroom by done. simpl in Hroom. lia. }
    rewrite Hcall. simpl.
    apply stability_callback_effect in Hcall as (_ & _ & Hlen & Hindex).
    destruct (decide (sender_id = my_id)) as [->|Hother].
    + rewrite Z.eqb_refl in Hindex. simpl in Hroom.
      apply (IH st1 (S used)); rewrite ?Hlen; [done| |lia].
      rewrite Hindex, Hused, wrap32_small; [lia|].
      unfold is_uint32. lia.
    + apply Z.eqb_neq in Hother. rewrite Hother in Hindex.
      apply (IH st1 used); rewrite ?Hlen; [done|congruence|lia].
Qed.

End Callback.

(** X4: whatever the selector, as long as the target count is positive, a
    run of the callback from its initial state has set [done] exactly if
    the number of deliveries has reached the target. *)
Theorem done_exactly_from_target
        num_nodes sel num_messages my_id (deliveries : list (Z * Z)) st :
  0 < delivery_target num_nodes sel num_messages < 2 ^ 32 ->
  deliver_all num_nodes sel num_messages my_id
              (callback_init num_messages) deliveries = Ok st ->
  (done st = true
   <-> delivery_target num_nodes sel num_messages <= Z.of_nat (length deliveries)).
Proof.
  intros Htarget Hrun.
  destruct (deliver_all_done num_nodes sel num_messages my_id deliveries
              (callback_init num_messages) st 0 Htarget Hrun)
    as [_ Hdone]; [reflexivity | simpl; split; [done | lia] | exact Hdone].
Qed.

Lemma done_exactly_from_target_witness :
  done {| num_delivered := 6; time_index := 2;
          end_times := [30; 60]; done := true |} = true
  <-> delivery_target 3 0 2 <= Z.of_nat (length [(1, 10); (2, 20); (3, 30);
                                                  (1, 40); (2, 50); (3, 60)]).
Proof.
  apply (done_exactly_from_target 3 0 2 3
           [(1, 10); (2, 20); (3, 30); (1, 40); (2, 50); (3, 60)]).
  - vm_compute. split; reflexivity.
  - reflexivity.
Defined.

(** C8: with 4 nodes and [num_senders_selector = 1], the membership
    function makes exactly the members of rank 0 and rank 1 non-senders
    (flags 0, 0, 1, 1) while the shard keeps all four members; and over a
    run of upcalls (at most 1000 of them for messages of this node, which
    is what [end_times] holds) the stability callback has set [done]
    exactly if the number of deliveries has reached 2000 = 1000 * (4 / 2). *)
Theorem latency_half_senders_four_nodes
        (a b c d : node_id_t) (rank0 : Z) (mode : Mode) (my_id : Z) :
  membership_function 4 1 mode (mkView [a; b; c; d] rank0)
    = Ok ([[ {| mode := mode;
                members := [a; b; c; d];
                is_sender := [0; 0; 1; 1] |} ]],
          mkView [a; b; c; d] 4)
  /\ delivery_target 4 1 1000 = 2000
  /\ forall deliveries : list (Z * Z),
       (own_deliveries my_id deliveries <= 1000)%nat ->
       exists st,
         deliver_all 4 1 1000 my_id (callback_init 1000) deliveries = Ok st
         /\ num_delivered st = Z.of_nat (length deliveries) mod 2 ^ 32
         /\ (done st = true <-> (2000 <= length deliveries)%nat).
Proof.
  split; [reflexivity|]. split; [reflexivity|]. intros deliveries Hown.
  destruct (deliver_all_returns 4 1 1000 my_id deliveries (callback_init 1000) 0)
    as [st Hrun]; [by vm_compute | reflexivity | simpl; lia |].
  exists st. split; [exact Hrun|].
  destruct (deliver_all_done 4 1 1000 my_id deliveries (callback_init 1000) st 0)
    as [Hcount Hdone]; try done.
  split; [exact Hcount|]. rewrite Hdone.
  change (delivery_target 4 1 1000) with 2000. simpl. lia.
Qed.

Lemma latency_half_senders_four_nodes_witness :
  exists st,
    deliver_all 4 1 1000 12 (callback_init 1000)
                (concat (replicate 1000 [(12, 5); (13, 6)])) = Ok st
    /\ num_delivered st
         = Z.of_nat (length (concat (replicate 1000 [(12, 5); (13, 6)]))) mod 2 ^ 32
    /\ (done st = true
        <-> (2000 <= length (concat (replicate 1000 [(12, 5); (13, 6)])))%nat).
Proof.
  apply (proj2 (proj2 (latency_half_senders_four_nodes 10 11 12 13 0 ORDERED 12))).
  vm_compute. apply le_n.
Defined.

End LatencyFacts.

(** ** The view-change counters *)

Section Counters.
Import SST.




End Counters.

(** ** The round-robin order *)

Section RoundRobin.
Import Order.

Lemma length_one_round k index : length (one_round k index) = k.
Proof. unfold one_round. by rewrite length_map, length_seq. Qed.

Lemma one_round_lookup k index sender :
  (sender < k)%nat -> one_round k index !! sender = Some (sender, index).
Proof.
  intros Hlt. unfold one_round.
  rewrite list_lookup_fmap, lookup_seq_lt by done. reflexivity.
Qed.

(** Leaving out one full round lowers the index by one and keeps the
    sender. *)
Lemma skip_round k i :
  (0 < k)%nat -> (k <= i)%nat ->
  ((i - k) mod k = i mod k /\ i / k = S ((i - k) / k))%nat.
Proof.
  intros Hk Hi.
  pose proof (Nat.div_mod_eq (i - k) k) as Hdm.
  pose proof (Nat.mod_upper_bound (i - k) k ltac:(lia)) as Hlt.
  assert (i = k * S ((i - k) / k) + (i - k) mod k)%nat as Hi' by lia.
  split.
  - apply (Nat.mod_unique i k (S ((i - k) / k))); [lia | exact Hi'].
  - symmetry. apply (Nat.div_unique i k _ ((i - k) mod k)); [lia | exact Hi'].
Qed.

Lemma rounds_lookup k : forall rounds first i,
  (0 < k)%nat -> (i < k * rounds)%nat ->
  flat_map (one_round k) (seq first rounds) !! i
    = Some ((i mod k)%nat, (first + i / k)%nat).
Proof.
  induction rounds as [|rounds IH]; intros first i Hk Hi; [lia|].
  simpl. destruct (Nat.lt_ge_cases i k) as [Hlt|Hge].
  - rewrite lookup_app_l by (by rewrite length_one_round).
    rewrite one_round_lookup by done.
    by rewrite Nat.mod_small, Nat.div_small, Nat.add_0_r.
  - rewrite lookup_app_r by (by rewrite length_one_round).
    rewrite length_one_round, IH by lia.
    destruct (skip_round k i Hk Hge) as [-> ->]. do 2 f_equal. lia.
Qed.

(** C3: in a shard with [k] senders the [i]-th entry of the round-robin
    interleaving is the message of sender rank [i mod k] with sender index
    [i div k]; this is what the delivery predicate computes from the
    sequence number [i], and [i] is the sequence number of exactly that
    pair. *)
Theorem round_robin_delivery_order k rounds i :
  (0 < k)%nat -> (i < k * rounds)%nat ->
  round_robin k rounds !! i = Some ((i mod k)%nat, (i / k)%nat)
  /\ sender_of k i = ((i mod k)%nat, (i / k)%nat)
  /\ (i mod k < k)%nat
  /\ seq_of k (i mod k) (i / k) = i
  /\ forall sender index,
       (sender < k)%nat -> seq_of k sender index = i ->
       sender = (i mod k)%nat /\ index = (i / k)%nat.
Proof.
  intros Hk Hi. unfold round_robin, seq_of.
  split; [by rewrite rounds_lookup|].
  split; [reflexivity|].
  split; [apply Nat.mod_upper_bound; lia|].
  split.
  - pose proof (Nat.div_mod_eq i k). lia.
  - intros sender index Hlt Hseq. split.
    + apply (Nat.mod_unique i k index sender); lia.
    + apply (Nat.div_unique i k index sender); lia.
Qed.

Lemma round_robin_delivery_order_witness :
  round_robin 4 3 !! 6%nat = Some ((6 mod 4)%nat, (6 / 4)%nat)
  /\ sender_of 4 6 = ((6 mod 4)%nat, (6 / 4)%nat)
  /\ (6 mod 4 < 4)%nat
  /\ seq_of 4 (6 mod 4) (6 / 4) = 6%nat
  /\ forall sender index,
       (sender < 4)%nat -> seq_of 4 sender index = 6%nat ->
       sender = (6 mod 4)%nat /\ index = (6 / 4)%nat.
Proof. apply (round_robin_delivery_order 4 3 6); lia. Defined.

(** The example of the comment on [seq_num]: four senders, two rounds. *)
Lemma round_robin_four_senders :
  round_robin 4 2
    = [ (0, 0); (1, 0); (2, 0); (3, 0); (0, 1); (1, 1); (2, 1); (3, 1) ]%nat
  /\ map (fun m => seq_of 4 (fst m) (snd m)) (round_robin 4 2)
     = [0; 1; 2; 3; 4; 5; 6; 7]%nat.
Proof. split; reflexivity. Qed.

End RoundRobin.

(** ** Waiting for the persistence frontier *)

Section Waiting.
Import Frontier.

Lemma wait_loop_first version : forall n seen waited o,
  seen !! n = Some o ->
  (forall m o', (m < n)%nat -> seen !! m = Some o' -> keeps_waiting version o') ->
  wait_loop version seen waited =
    if thread_shutdown o then Returned false (waited + n)
    else if version <=? minimum_persisted_version o then Returned true (waited + n)
         else wait_loop version (drop (S n) seen) (waited + S n).
Proof.
  induction n as [|n IH]; intros seen waited o Hn Hbefore;
    destruct seen as [|o0 later]; try done.
  - injection Hn as ->. simpl. rewrite Nat.add_0_r, drop_0.
    by rewrite Nat.add_1_r.
  - simpl in Hn. destruct (Hbefore 0%nat o0) as [Hshut Hlow]; [lia|done|].
    simpl. rewrite Hshut.
    destruct (Z.leb_spec version (minimum_persisted_version o0)); [lia|].
    rewrite (IH later (S waited) o Hn).
    + by rewrite <- !Nat.add_succ_comm.
    + intros m o' Hm Hlook. apply (Hbefore (S m)); [lia|done].
Qed.

Lemma wait_loop_never version : forall seen waited,
  (forall o, o ∈ seen -> keeps_waiting version o) ->
  wait_loop version seen waited = StillWaiting.
Proof.
  induction seen as [|o later IH]; intros waited Hall; [done|].
  destruct (Hall o) as [Hshut Hlow]; [by left|].
  simpl. rewrite Hshut.
  destruct (Z.leb_spec version (minimum_persisted_version o)); [lia|].
  apply IH. intros o' Hin. apply Hall. by right.
Qed.

(** C7: a call for a version beyond the latest delivered one returns false
    at once, whatever happens later.  Otherwise the caller waits through
    the looks that show neither the shutdown flag nor a frontier at the
    version: the first look that shows the shutdown flag makes the call
    return false, the first one that shows the frontier at or past the
    version (and no shutdown) makes it return true, and while no such look
    comes the call has not returned. *)
Theorem wait_for_global_persistence_frontier_result
        (delivered_version version : Z) (seen : list observation) :
  (delivered_version < version ->
     wait_for_global_persistence_frontier delivered_version version seen
       = Returned false 0)
  /\ (version <= delivered_version ->
      forall n o,
        seen !! n = Some o ->
        (forall m o', (m < n)%nat -> seen !! m = Some o' -> keeps_waiting version o') ->
        (thread_shutdown o = true ->
           wait_for_global_persistence_frontier delivered_version version seen
             = Returned false n)
        /\ (thread_shutdown o = false ->
            version <= minimum_persisted_version o ->
            wait_for_global_persistence_frontier delivered_version version seen
              = Returned true n))
  /\ (version <= delivered_version ->
      (forall o, o ∈ seen -> keeps_waiting version o) ->
      wait_for_global_persistence_frontier delivered_version version seen
        = StillWaiting).
Proof.
  unfold wait_for_global_persistence_frontier. split; [|split].
  - intros Hfuture. by destruct (Z.ltb_spec delivered_version version); [|lia].
  - intros Hle n o Hn Hbefore.
    destruct (Z.ltb_spec delivered_version version); [lia|].
    rewrite (wait_loop_first version n seen 0 o) by done. split.
    + intros Hshut. by rewrite Hshut.
    + intros Hshut Hreached. rewrite Hshut.
      by destruct (Z.leb_spec version (minimum_persisted_version o)); [|lia].
  - intros Hle Hall.
    destruct (Z.ltb_spec delivered_version version); [lia|].
    by apply wait_loop_never.
Qed.

Lemma wait_for_global_persistence_frontier_result_witness :
  wait_for_global_persistence_frontier 5 9 [mkObservation 9 false]
    = Returned false 0
  /\ wait_for_global_persistence_frontier
       9 7 [mkObservation 5 false; mkObservation 6 false; mkObservation 7 false]
     = Returned true 2
  /\ wait_for_global_persistence_frontier
       9 7 [mkObservation 5 false; mkObservation 6 true; mkObservation 7 false]
     = Returned false 1
  /\ wait_for_global_persistence_frontier
       9 7 [mkObservation 5 false; mkObservation 6 false]
     = StillWaiting.
Proof.
  split; [|split; [|split]].
  - apply (proj1 (wait_for_global_persistence_frontier_result
                    5 9 [mkObservation 9 false])). lia.
  - destruct (wait_for_global_persistence_frontier_result
                9 7 [mkObservation 5 false; mkObservation 6 false;
                     mkObservation 7 false]) as (_ & Hwait & _).
    destruct (Hwait ltac:(lia) 2%nat (mkObservation 7 false) eq_refl)
      as [_ Htrue].
    + intros m o' Hm Hlook.
      destruct m as [|[|m]]; [| |lia]; injection Hlook as <-;
        split; simpl; (reflexivity || lia).
    + apply Htrue; [reflexivity | simpl; lia].
  - destruct (wait_for_global_persistence_frontier_result
                9 7 [mkObservation 5 false; mkObservation 6 true;
                     mkObservation 7 false]) as (_ & Hwait & _).
    destruct (Hwait ltac:(lia) 1%nat (mkObservation 6 true) eq_refl)
      as [Hfalse _].
    + intros m o' Hm Hlook.
      destruct m as [|m]; [|lia]; injection Hlook as <-;
        split; simpl; (reflexivity || lia).
    + apply Hfalse. reflexivity.
  - apply (proj2 (proj2 (wait_for_global_persistence_frontier_result
                    9 7 [mkObservation 5 false; mkObservation 6 false]))); [lia|].
    intros o Hin. apply list_elem_of_In in Hin.
    destruct Hin as [<-|[<-|[]]]; split; simpl; (reflexivity || lia).
Defined.

End Waiting.

(** ** [getAbsoluteFilePath] *)

Section AbsolutePaths.
Import StdString ConfPaths.

Lemma has_char_app c s t :
  has_char c (s ++ t) = has_char c s || has_char c t.
Proof.
  induction s as [|a s IH]; simpl; [done|].
  by rewrite IH, orb_assoc.
Qed.

Lemma find_last_of_none s c :
  find_last_of s c = None <-> has_char c s = false.
Proof.
  induction s as [|a s IH]; simpl; [done|].
  destruct (find_last_of s c) as [k|].
  - split; [done|]. intros H. apply orb_false_elim in H as [_ H].
    apply IH in H. done.
  - destruct IH as [IH _]. rewrite (IH eq_refl), orb_false_r.
    by destruct (Ascii.eqb a c).
Qed.

(** The last slash of [dir/base] is the one after [dir]. *)
Lemma find_last_of_separator dir base c :
  has_char c base = false ->
  find_last_of (dir ++ String c base) c = Some (size dir).
Proof.
  intros Hbase. induction dir as [|a dir IH]; simpl.
  - apply find_last_of_none in Hbase. rewrite Hbase.
    by rewrite Ascii.eqb_refl.
  - by rewrite IH.
Qed.

Lemma take_chars_app s t : take_chars (size s) (s ++ t) = s.
Proof. induction s as [|a s IH]; simpl; [by destruct t | by rewrite IH]. Qed.

Lemma size_app s t : size (s ++ t) = (size s + size t)%nat.
Proof. induction s as [|a s IH]; simpl; [done | by rewrite IH]. Qed.

(** A found position holds a character of the string, so the text before
    it starts like the string does. *)
Lemma find_last_of_absolute s c k :
  find_last_of s c = Some k ->
  is_absolute s = true ->
  take_chars k s = EmptyString \/ is_absolute (take_chars k s) = true.
Proof.
  destruct s as [|a s]; [done|]. simpl. intros Hk Habs.
  destruct k as [|k]; [by left | right]. exact Habs.
Qed.

(** An absolute path is handed back as it is. *)
Lemma getAbsoluteFilePath_of_absolute conf_file_env path :
  is_absolute path = true -> getAbsoluteFilePath conf_file_env path = Ok path.
Proof.
  destruct path as [|c rest]; [done|]. intros Habs.
  unfold getAbsoluteFilePath, at_. cbn [size String.length Nat.ltb Nat.leb String.get mbind outcome_bind].
  unfold is_absolute in Habs. by rewrite Habs.
Qed.

(** X5: for a relative, non-empty file name and a configuration file
    [dir/base] (no slash in [base]), [getAbsoluteFilePath] returns the file
    of that name next to the configuration file, [dir/filename]. *)
Theorem getAbsoluteFilePath_next_to_conf_file dir base filename :
  filename <> EmptyString ->
  is_absolute filename = false ->
  has_char "/" base = false ->
  getAbsoluteFilePath (Some (dir ++ "/" ++ base)%string) filename
    = Ok (dir ++ "/" ++ filename)%string.
Proof.
  intros Hne Hrel Hbase. unfold getAbsoluteFilePath.
  destruct filename as [|c rest]; [done|]. simpl in Hrel.
  simpl. rewrite Hrel. simpl.
  change ("/" ++ base)%string with (String "/" base).
  rewrite (find_last_of_separator dir base "/" Hbase).
  unfold substr. simpl. by rewrite take_chars_app.
Qed.

Lemma getAbsoluteFilePath_next_to_conf_file_witness :
  getAbsoluteFilePath (Some ("/etc/derecho" ++ "/" ++ "derecho.cfg")%string)
                      "layout.json"
    = Ok ("/etc/derecho" ++ "/" ++ "layout.json")%string.
Proof.
  apply (getAbsoluteFilePath_next_to_conf_file
           "/etc/derecho" "derecho.cfg" "layout.json"); [discriminate|done|done].
Defined.

(** X6: [getAbsoluteFilePath] always returns, and it returns the file name
    unchanged exactly when the name is empty or absolute, or the
    environment variable is unset, or its value has no slash. *)
Theorem getAbsoluteFilePath_unchanged conf_file_env filename :
  returns (getAbsoluteFilePath conf_file_env filename)
  /\ (getAbsoluteFilePath conf_file_env filename = Ok filename
      <-> filename = EmptyString
          \/ is_absolute filename = true
          \/ conf_file_env = None
          \/ exists conf_file,
               conf_file_env = Some conf_file /\ has_char "/" conf_file = false).
Proof.
  unfold getAbsoluteFilePath, returns.
  destruct filename as [|c rest]; simpl.
  { split; [by eexists | split; [by left | done]]. }
  destruct (Ascii.eqb c "/") eqn:Hc; simpl.
  { split; [by eexists | split; [by right; left | done]]. }
  destruct conf_file_env as [conf_file|].
  2:{ split; [by eexists | split; [by right; right; left | done]]. }
  destruct (find_last_of conf_file "/") as [k|] eqn:Hlast.
  - unfold substr. simpl. split; [by eexists|]. split.
    + intros [= Heq]. exfalso.
      apply (f_equal size) in Heq. rewrite size_app in Heq. simpl in Heq. lia.
    + intros [?|[?|[?|(cf & [= <-] & Hno)]]]; try done.
      apply find_last_of_none in Hno. congruence.
  - split; [by eexists|]. split; [intros _|done].
    right; right; right. exists conf_file. split; [done|].
    by apply find_last_of_none.
Qed.

(** X7: when the configuration file is given by an absolute path, the
    result for a non-empty file name is an absolute path, and applying
    [getAbsoluteFilePath] to a result gives it back unchanged. *)
Theorem getAbsoluteFilePath_absolute conf_file filename result :
  is_absolute conf_file = true ->
  getAbsoluteFilePath (Some conf_file) filename = Ok result ->
  (filename <> EmptyString -> is_absolute result = true)
  /\ getAbsoluteFilePath (Some conf_file) result = Ok result.
Proof.
  intros Habs. unfold getAbsoluteFilePath at 1.
  destruct filename as [|c rest]; simpl.
  { intros [= <-]. done. }
  destruct (Ascii.eqb c "/") eqn:Hc; simpl.
  { intros [= <-]. split; [done|].
    apply getAbsoluteFilePath_of_absolute. exact Hc. }
  destruct (find_last_of conf_file "/") as [k|] eqn:Hlast.
  2:{ apply find_last_of_none in Hlast.
      destruct conf_file as [|a cf]; [done|]. simpl in Habs, Hlast.
      by rewrite Habs in Hlast. }
  unfold substr. simpl. intros [= <-].
  assert (is_absolute (take_chars k conf_file ++ String "/" (String c rest)) = true)
    as Hres.
  { destruct (find_last_of_absolute conf_file "/" k Hlast Habs) as [->|Hpre];
      [done|].
    by destruct (take_chars k conf_file). }
  split; [done|]. by apply getAbsoluteFilePath_of_absolute.
Qed.

Lemma getAbsoluteFilePath_absolute_witness :
  (("keys/private.pem" : string) <> EmptyString ->
   is_absolute "/opt/derecho/keys/private.pem" = true)
  /\ getAbsoluteFilePath (Some "/opt/derecho/derecho.cfg"%string)
                         "/opt/derecho/keys/private.pem"
     = Ok "/opt/derecho/keys/private.pem"%string.
Proof.
  apply (getAbsoluteFilePath_absolute
           "/opt/derecho/derecho.cfg" "keys/private.pem"
           "/opt/derecho/keys/private.pem"); reflexivity.
Defined.

End AbsolutePaths.

(** ** The [Cache] object *)

Section CacheFacts.
Import CacheTest.

(** X8: a value put under a key is what [get] returns for that key, the
    read leaves the cache as the put made it, and the put does not change
    what [get] returns for any other key. *)
Theorem Cache_put_get key value (cache_map : Cache) :
  get key (put key value cache_map) = (value, put key value cache_map)
  /\ forall other, other <> key ->
       fst (get other (put key value cache_map)) = fst (get other cache_map).
Proof.
  unfold get, put. split.
  - by rewrite lookup_insert_eq.
  - intros other Hother. rewrite lookup_insert_ne by done.
    by destruct (cache_map !! other).
Qed.

(** X9: reading a key that is not in the cache returns the empty string
    and, as a side effect of [operator[]], leaves an entry for the key:
    afterwards [contains] answers true although nothing was put, and
    [invalidate] finds an entry to remove, which gives the old cache
    back. *)
Theorem Cache_get_missing_inserts key (cache_map : Cache) :
  contains key cache_map = false ->
  fst (get key cache_map) = EmptyString
  /\ contains key (snd (get key cache_map)) = true
  /\ snd (get key cache_map) <> cache_map
  /\ invalidate key (snd (get key cache_map)) = (true, cache_map).
Proof.
  unfold contains, get, invalidate.
  destruct (cache_map !! key) eqn:Hkey; [done|]. intros _. simpl.
  rewrite lookup_insert_eq. repeat split.
  - intros Heq. apply (f_equal (fun m => m !! key)) in Heq.
    rewrite lookup_insert_eq, Hkey in Heq. done.
  - by rewrite delete_insert_id.
Qed.

Lemma Cache_get_missing_inserts_witness :
  fst (get "6" (put "3" "Node 3's things" Cache_new)) = EmptyString
  /\ contains "6" (snd (get "6" (put "3" "Node 3's things" Cache_new))) = true
  /\ snd (get "6" (put "3" "Node 3's things" Cache_new))
     <> put "3" "Node 3's things" Cache_new
  /\ invalidate "6" (snd (get "6" (put "3" "Node 3's things" Cache_new)))
     = (true, put "3" "Node 3's things" Cache_new).
Proof.
  apply (Cache_get_missing_inserts "6" (put "3" "Node 3's things" Cache_new)).
  reflexivity.
Defined.

(** X10: [invalidate] reports whether the key was in the cache; afterwards
    the key is gone, every other key is looked up as before, and a second
    [invalidate] of the key reports false and changes nothing. *)
Theorem Cache_invalidate key (cache_map : Cache) :
  fst (invalidate key cache_map) = contains key cache_map
  /\ contains key (snd (invalidate key cache_map)) = false
  /\ (forall other, other <> key ->
        snd (invalidate key cache_map) !! other = cache_map !! other)
  /\ invalidate key (snd (invalidate key cache_map))
     = (false, snd (invalidate key cache_map)).
Proof.
  unfold invalidate, contains.
  destruct (cache_map !! key) eqn:Hkey; simpl.
  - rewrite lookup_delete_eq. repeat split.
    intros other Hother. by rewrite lookup_delete_ne.
  - rewrite Hkey. done.
Qed.

End CacheFacts.

(** ** Senders of the latency experiment *)

Section SenderFacts.
Import LatencyTest Senders.

Lemma get_num_senders_zeros k acc :
  foldl (fun num i => if i =? 0 then num else wrap32 (num + 1)) acc
        (replicate k 0) = acc.
Proof. induction k as [|k IH]; simpl; [done | exact IH]. Qed.

Lemma get_num_senders_ones k : forall acc,
  0 <= acc -> acc + Z.of_nat k < 2 ^ 32 ->
  foldl (fun num i => if i =? 0 then num else wrap32 (num + 1)) acc
        (replicate k 1) = acc + Z.of_nat k.
Proof.
  induction k as [|k IH]; intros acc Hacc Hfit; simpl; [lia|].
  rewrite wrap32_small by (unfold is_uint32; lia).
  rewrite IH by lia. lia.
Qed.

(** The count of senders among flags with the first [k] of [n] cleared. *)
Lemma get_num_senders_flags_after k n :
  (k <= n)%nat -> Z.of_nat n < 2 ^ 32 ->
  get_num_senders (flags_after k n) = Z.of_nat (n - k).
Proof.
  intros Hk Hn. unfold get_num_senders, flags_after.
  rewrite foldl_app, get_num_senders_zeros, get_num_senders_ones; lia.
Qed.

Lemma non_senders_le sel n : (0 < n)%nat -> (non_senders sel n <= n)%nat.
Proof.
  intros Hn. unfold non_senders.
  assert ((n - 1) / 2 < n)%nat by (apply Nat.Div0.div_lt_upper_bound; lia).
  destruct (sel =? 0); [lia|]. destruct (sel =? 1); lia.
Qed.

(** The senders left over by the selector: all, half (rounded down),
    or one. *)
Lemma senders_of_selector sel n :
  (0 < n)%nat ->
  Z.of_nat (n - non_senders sel n)
    = if sel =? 0 then Z.of_nat n
      else if sel =? 1 then Z.of_nat n / 2
      else 1.
Proof.
  intros Hn. unfold non_senders.
  destruct (sel =? 0); [f_equal; lia|]. destruct (sel =? 1); [|lia].
  change (Z.of_nat n / 2) with (Z.of_nat n / Z.of_nat 2).
  rewrite <- (Nat2Z.inj_div n 2). f_equal.
  pose proof (Nat.div_mod_eq (n - 1) 2) as H1.
  pose proof (Nat.div_mod_eq n 2) as H2.
  pose proof (Nat.mod_upper_bound (n - 1) 2 ltac:(lia)).
  pose proof (Nat.mod_upper_bound n 2 ltac:(lia)).
  lia.
Qed.

(** X11: in the shard that [membership_function] lays out for a view of
    [n] members, [get_num_senders] counts [n] senders for selector 0,
    [n / 2] for selector 1 and one sender for any other selector. *)
Theorem get_num_senders_of_layout num_nodes sel mode view :
  num_nodes <= Z.of_nat (length (view_members view)) ->
  (0 < length (view_members view))%nat ->
  Z.of_nat (length (view_members view)) < 2 ^ 32 ->
  exists shard view',
    membership_function num_nodes sel mode view = Ok ([[shard]], view')
    /\ get_num_senders (is_sender shard)
       = if sel =? 0 then Z.of_nat (length (view_members view))
         else if sel =? 1 then Z.of_nat (length (view_members view)) / 2
         else 1.
Proof.
  intros Hnodes Hpos H32.
  rewrite membership_function_layout by assumption.
  eexists _, _. split; [reflexivity|]. simpl.
  rewrite get_num_senders_flags_after by (auto using non_senders_le).
  by apply senders_of_selector.
Qed.

Lemma get_num_senders_of_layout_witness :
  exists shard view',
    membership_function 5 1 ORDERED (mkView [1; 2; 3; 4; 5] 0)
      = Ok ([[shard]], view')
    /\ get_num_senders (is_sender shard)
       = if 1 =? 0 then Z.of_nat 5
         else if 1 =? 1 then Z.of_nat 5 / 2
         else 1.
Proof.
  apply (get_num_senders_of_layout 5 1 ORDERED (mkView [1; 2; 3; 4; 5] 0));
    simpl; lia.
Defined.

(** The count the callback compares with is the number of messages per
    sender times the number of senders of the shard (modulo 2^32). *)
Lemma delivery_target_of_layout num_nodes sel mode view num_messages shard view' :
  num_nodes = Z.of_nat (length (view_members view)) ->
  (0 < length (view_members view))%nat ->
  num_nodes < 2 ^ 32 ->
  is_uint32 num_messages ->
  membership_function num_nodes sel mode view = Ok ([[shard]], view') ->
  delivery_target num_nodes sel num_messages
  = wrap32 (num_messages * get_num_senders (is_sender shard)).
Proof.
  intros -> Hpos H32 Hmsg Hlayout.
  rewrite membership_function_layout in Hlayout by (done || lia).
  injection Hlayout as <- <-. simpl.
  rewrite get_num_senders_flags_after by (auto using non_senders_le).
  rewrite senders_of_selector by done. unfold delivery_target.
  destruct (sel =? 0); [done|]. destruct (sel =? 1); [done|].
  by rewrite Z.mul_1_r, wrap32_small.
Qed.

(** X12: when the view has exactly [num_nodes] members and every sender's
    [num_messages] messages are fewer than 2^32 in all, a run of the
    stability callback has set [done] exactly if the deliveries have reached
    [num_messages] times the number of senders of the shard that the
    membership function laid out. *)
Theorem done_when_all_senders_delivered
        num_nodes sel mode view num_messages my_id shard view'
        (deliveries : list (Z * Z)) st :
  num_nodes = Z.of_nat (length (view_members view)) ->
  (0 < length (view_members view))%nat ->
  is_uint32 num_messages ->
  membership_function num_nodes sel mode view = Ok ([[shard]], view') ->
  0 < num_messages * get_num_senders (is_sender shard) < 2 ^ 32 ->
  num_nodes < 2 ^ 32 ->
  deliver_all num_nodes sel num_messages my_id
              (callback_init num_messages) deliveries = Ok st ->
  (done st = true
   <-> num_messages * get_num_senders (is_sender shard)
       <= Z.of_nat (length deliveries)).
Proof.
  intros Hnodes Hpos Hmsg Hlayout Hfit H32 Hrun.
  pose proof (delivery_target_of_layout num_nodes sel mode view num_messages
                shard view' Hnodes Hpos H32 Hmsg Hlayout) as Htarget.
  rewrite wrap32_small in Htarget by (unfold is_uint32; lia).
  rewrite <- Htarget in Hfit |- *.
  destruct (deliver_all_done num_nodes sel num_messages my_id deliveries
              (callback_init num_messages) st 0 Hfit Hrun)
    as [_ Hdone]; [reflexivity | simpl; split; [done | lia] | exact Hdone].
Qed.

Lemma done_when_all_senders_delivered_witness :
  done {| num_delivered := 4; time_index := 2;
          end_times := [105; 120]; done := true |} = true
  <-> 2 * get_num_senders [0; 0; 1; 1]
      <= Z.of_nat (length [(12, 105); (13, 110); (12, 120); (13, 140)]).
Proof.
  apply (done_when_all_senders_delivered 4 1 ORDERED
           (mkView [10; 11; 12; 13] 0) 2 12
           (mkSubView ORDERED [10; 11; 12; 13] [0; 0; 1; 1])
           (mkView [10; 11; 12; 13] 4)
           [(12, 105); (13, 110); (12, 120); (13, 140)]);
    try reflexivity; try (simpl; lia); try (unfold is_uint32; lia).
  vm_compute. split; reflexivity.
Defined.

(** X13: when the view has exactly [num_nodes] members, the nodes that
    [main] lets send are exactly the members the membership function
    flags as senders. *)
Theorem sends_all_iff_flagged num_nodes sel mode view (my_rank : nat) :
  num_nodes = Z.of_nat (length (view_members view)) ->
  num_nodes < 2 ^ 32 ->
  (my_rank < length (view_members view))%nat ->
  exists shard view',
    membership_function num_nodes sel mode view = Ok ([[shard]], view')
    /\ (sends_all sel num_nodes (Z.of_nat my_rank) = true
        <-> is_sender shard !! my_rank = Some 1).
Proof.
  intros -> H32 Hrank.
  set (n := length (view_members view)) in *.
  rewrite membership_function_layout by (fold n; lia).
  eexists _, _. split; [reflexivity|]. simpl. fold n.
  assert (is_sender_at :
            flags_after (non_senders sel n) n !! my_rank
            = Some (if (my_rank <? non_senders sel n)%nat then 0 else 1)).
  { unfold flags_after.
    destruct (Nat.ltb_spec my_rank (non_senders sel n)).
    - rewrite lookup_app_l by (by rewrite length_replicate).
      by apply lookup_replicate_2.
    - rewrite lookup_app_r by (by rewrite length_replicate).
      rewrite length_replicate. apply lookup_replicate_2.
      pose proof (non_senders_le sel n ltac:(lia)). lia. }
  rewrite is_sender_at. unfold sends_all, non_senders.
  rewrite (wrap32_small (Z.of_nat n - 1)) by (unfold is_uint32; lia).
  destruct (sel =? 0).
  { destruct (Nat.ltb_spec my_rank 0); [lia | done]. }
  destruct (sel =? 1).
  - replace (Z.of_nat n - 1) with (Z.of_nat (n - 1)) by lia.
    change (Z.of_nat (n - 1) / 2) with (Z.of_nat (n - 1) / Z.of_nat 2).
    rewrite <- (Nat2Z.inj_div (n - 1) 2).
    destruct (Z.ltb_spec (Z.of_nat ((n - 1) / 2)) (Z.of_nat my_rank));
      destruct (Nat.ltb_spec my_rank (S ((n - 1) / 2))); try lia; done.
  - destruct (Z.eqb_spec (Z.of_nat my_rank) (Z.of_nat n - 1));
      destruct (Nat.ltb_spec my_rank (n - 1)); try lia; done.
Qed.

Lemma sends_all_iff_flagged_witness :
  exists shard view',
    membership_function 4 1 ORDERED (mkView [10; 11; 12; 13] 0)
      = Ok ([[shard]], view')
    /\ (sends_all 1 4 (Z.of_nat 2) = true
        <-> is_sender shard !! 2%nat = Some 1).
Proof.
  apply (sends_all_iff_flagged 4 1 ORDERED (mkView [10; 11; 12; 13] 0) 2);
    [reflexivity | lia | simpl; lia].
Defined.

End SenderFacts.

(** ** [index_of_type] *)

Section TypeIndexFacts.
Import TypeIndex.
Context {T : Type} `{EqDecision T}.

Lemma index_of_type_impl_first (TargetType : T) : forall pack counter,
  0 <= counter -> counter + Z.of_nat (length pack) < 2 ^ 32 ->
  match index_of_type_impl counter TargetType pack with
  | Some i =>
      exists j : nat,
        i = counter + Z.of_nat j
        /\ pack !! j = Some TargetType
        /\ forall j', (j' < j)%nat -> pack !! j' <> Some TargetType
  | None => TargetType ∉ pack
  end.
Proof.
  induction pack as [|FirstType RestTypes IH]; intros counter Hc Hfit; simpl.
  - apply not_elem_of_nil.
  - destruct (decide (TargetType = FirstType)) as [->|Hne].
    + exists 0%nat. split; [lia|]. split; [done|]. intros j' Hj'. lia.
    + cbn [length] in Hfit. rewrite wrap32_small by (unfold is_uint32; lia).
      specialize (IH (counter + 1) ltac:(lia) ltac:(lia)).
      destruct (index_of_type_impl (counter + 1) TargetType RestTypes) as [i|].
      * destruct IH as (j & -> & Hj & Hbefore).
        exists (S j). split; [lia|]. split; [done|].
        intros [|j'] Hj'; simpl; [congruence|]. apply Hbefore. lia.
      * rewrite elem_of_cons. intros [?|?]; done.
Qed.

(** X14: for a parameter pack (of fewer than 2^32 types), [index_of_type]
    is the position of the first occurrence of the target type; when the
    type is not in the pack there is no value (the template does not
    instantiate). *)
Theorem index_of_type_first_occurrence (TargetType : T) (TypePack : list T) :
  Z.of_nat (length TypePack) < 2 ^ 32 ->
  match index_of_type TargetType TypePack with
  | Some i =>
      0 <= i
      /\ TypePack !! Z.to_nat i = Some TargetType
      /\ forall j, (j < Z.to_nat i)%nat -> TypePack !! j <> Some TargetType
  | None => TargetType ∉ TypePack
  end.
Proof.
  intros Hfit. unfold index_of_type.
  assert (0 + Z.of_nat (length TypePack) < 2 ^ 32) as Hfit0 by lia.
  pose proof (index_of_type_impl_first TargetType TypePack 0 (Z.le_refl 0) Hfit0)
    as Hspec.
  destruct (index_of_type_impl 0 TargetType TypePack) as [i|]; [|done].
  destruct Hspec as (j & -> & Hj & Hbefore).
  rewrite Z.add_0_l, Nat2Z.id. split; [lia|]. done.
Qed.

(** X15: in a pack of distinct types, [index_of_type] of the type at
    position [i] is [i]. *)
Theorem index_of_type_lookup (TypePack : list T) (i : nat) (TargetType : T) :
  NoDup TypePack ->
  Z.of_nat (length TypePack) < 2 ^ 32 ->
  TypePack !! i = Some TargetType ->
  index_of_type TargetType TypePack = Some (Z.of_nat i).
Proof.
  intros Hnodup Hfit Hi. unfold index_of_type.
  assert (0 + Z.of_nat (length TypePack) < 2 ^ 32) as Hfit0 by lia.
  pose proof (index_of_type_impl_first TargetType TypePack 0 (Z.le_refl 0) Hfit0)
    as Hspec.
  destruct (index_of_type_impl 0 TargetType TypePack) as [i'|].
  - destruct Hspec as (j & -> & Hj & _).
    by rewrite (NoDup_lookup _ _ _ _ Hnodup Hi Hj).
  - exfalso. apply Hspec. by eapply list_elem_of_lookup_2.
Qed.

End TypeIndexFacts.

Lemma index_of_type_first_occurrence_witness :
  match TypeIndex.index_of_type "Cache"%string
          ["LoadBalancer"; "Cache"]%string with
  | Some i =>
      0 <= i
      /\ ["LoadBalancer"; "Cache"]%string !! Z.to_nat i = Some "Cache"%string
      /\ forall j, (j < Z.to_nat i)%nat ->
           ["LoadBalancer"; "Cache"]%string !! j <> Some "Cache"%string
  | None => "Cache"%string ∉ ["LoadBalancer"; "Cache"]%string
  end.
Proof.
  apply (index_of_type_first_occurrence "Cache"%string
           ["LoadBalancer"; "Cache"]%string).
  simpl. lia.
Defined.

Lemma index_of_type_lookup_witness :
  TypeIndex.index_of_type "Cache"%string ["LoadBalancer"; "Cache"]%string
    = Some (Z.of_nat 1).
Proof.
  apply (index_of_type_lookup ["LoadBalancer"; "Cache"]%string 1 "Cache"%string).
  - repeat constructor; rewrite ?elem_of_cons, ?elem_of_nil;
      intros H; repeat destruct H as [H|H]; done.
  - simpl. lia.
  - reflexivity.
Defined.

(** ** Loading the configuration *)

Section ConfLoadFacts.
Import ConfLoad.

Lemma lookup_foldl_insert (v : string -> string) (k : string) :
  forall (names : list string) (config : gmap string string),
    foldl (fun config key => <[key := v key]> config) config names !! k
    = if decide (k ∈ names) then Some (v k) else config !! k.
Proof.
  induction names as [|a names IH]; intros config; cbn [foldl].
  - case_decide as Hin; [by apply elem_of_nil in Hin | done].
  - rewrite IH.
    destruct (decide (k ∈ names)) as [Hin|Hnotin];
      destruct (decide (k ∈ a :: names)) as [Hin'|Hnotin']; try done.
    + exfalso. apply Hnotin'. by right.
    + apply elem_of_cons in Hin' as [->|?]; [|done].
      by rewrite lookup_insert_eq.
    + rewrite lookup_insert_ne; [done|].
      intros ->. apply Hnotin'. by left.
Qed.

(** After [loadFromFile] a variable of the file has the file's value and
    every other key the value it had. *)
Lemma lookup_loadFromFile parse config file k :
  loadFromFile parse config file !! k
  = if decide (k ∈ get_variable_names (parse file))
    then Some (value (parse file) k) else config !! k.
Proof. apply lookup_foldl_insert. Qed.

Lemma lookup_foldl_take_option long_option_name k :
  forall parsed_args config present,
    fst (foldl (take_option long_option_name) (config, present) parsed_args) !! k
    = match last_optarg long_option_name k parsed_args with
      | Some optarg => Some optarg
      | None => config !! k
      end.
Proof.
  induction parsed_args as [|c later IH]; intros config present; simpl; [done|].
  destruct c as [option_index optarg| |c]; simpl; rewrite IH;
    destruct (last_optarg long_option_name k later); try done.
  destruct (String.eqb_spec (long_option_name option_index) k) as [<-|Hne].
  - by rewrite lookup_insert_eq.
  - by rewrite lookup_insert_ne.
Qed.

(** X16: in the configuration that [Conf::Conf] builds, a key has the
    argument of the last command-line option of its name; without such an
    option, the value the node configuration file gives it; failing that,
    the value the group configuration file gives it; and else its
    default. *)
Theorem Conf_new_precedence parse long_option_name defaults parsed_args
        group_conf_file node_conf_file (key : string) :
  fst (Conf_new parse long_option_name defaults parsed_args
                group_conf_file node_conf_file) !! key
  = match last_optarg long_option_name key parsed_args with
    | Some optarg => Some optarg
    | None =>
        let from_group :=
          match group_conf_file with
          | Some file =>
              if decide (key ∈ get_variable_names (parse file))
              then Some (value (parse file) key) else defaults !! key
          | None => defaults !! key
          end in
        match node_conf_file with
        | Some file =>
            if decide (key ∈ get_variable_names (parse file))
            then Some (value (parse file) key) else from_group
        | None => from_group
        end
    end.
Proof.
  unfold Conf_new.
  set (config1 := match group_conf_file with
                  | Some file => loadFromFile parse defaults file
                  | None => defaults
                  end).
  set (config2 := match node_conf_file with
                  | Some file => loadFromFile parse config1 file
                  | None => config1
                  end).
  pose proof (lookup_foldl_take_option long_option_name key parsed_args
                config2 false) as Hargs.
  destruct (foldl (take_option long_option_name) (config2, false) parsed_args)
    as [config present]. simpl in *. rewrite Hargs.
  destruct (last_optarg long_option_name key parsed_args); [done|].
  assert (config1 !! key
          = match group_conf_file with
            | Some file =>
                if decide (key ∈ get_variable_names (parse file))
                then Some (value (parse file) key) else defaults !! key
            | None => defaults !! key
            end) as <-.
  { unfold config1. destruct group_conf_file; [apply lookup_loadFromFile|done]. }
  unfold config2. destruct node_conf_file; [apply lookup_loadFromFile|done].
Qed.

(** The second half of the file test is always true: the mode with the
    owner-read bit or-ed in is never zero. *)
Lemma regular_and_readable_is_regular st_mode :
  regular_and_readable st_mode = S_ISREG st_mode.
Proof.
  unfold regular_and_readable.
  destruct (Z.eqb_spec (Z.lor S_IRUSR st_mode) 0) as [Hzero|_].
  - apply Z.lor_eq_0_iff in Hzero as [Hbit _]. discriminate.
  - apply andb_true_r.
Qed.

Lemma is_regular_file_spec stat file_name :
  is_regular_file stat file_name = true <-> regular_file stat file_name.
Proof.
  unfold is_regular_file, regular_file.
  destruct (stat file_name) as [st_mode|].
  - destruct (String.eqb_spec file_name EmptyString) as [->|Hne].
    + rewrite andb_false_r. split; [done | by intros [? _]].
    + rewrite andb_true_r. split.
      * intros Hreg. split; [done|]. by exists st_mode.
      * by intros [_ (m & [= <-] & Hreg)].
  - split; [done|]. by intros [_ (m & ? & _)].
Qed.

Lemma is_regular_file_named stat file_name :
  is_regular_file stat file_name = true ->
  String.eqb file_name EmptyString = false.
Proof.
  unfold is_regular_file. destruct (stat file_name); [|done].
  intros [_ Hne]%andb_true_iff. by apply negb_true_iff.
Qed.

(** The file [loadExtraFile] settles on: the one the environment variable
    names if that is a regular file, else the default file if that is
    one. *)
Lemma loadExtraFile_real_file_name_choice getenv stat default_file_name env_var_name :
  loadExtraFile_real_file_name getenv stat default_file_name env_var_name
  = let from_default :=
      if is_regular_file stat default_file_name
      then default_file_name else EmptyString in
    match env_var_name ≫= getenv with
    | Some env_filename =>
        if is_regular_file stat env_filename then env_filename
        else from_default
    | None => from_default
    end.
Proof.
  unfold loadExtraFile_real_file_name, is_regular_file.
  assert (Hdefault :
    match stat default_file_name with
    | Some st_mode =>
        if regular_and_readable st_mode then default_file_name
        else EmptyString
    | None => EmptyString
    end
    = if match stat default_file_name with
         | Some st_mode =>
             S_ISREG st_mode && negb (String.eqb default_file_name EmptyString)
         | None => false
         end
      then default_file_name else EmptyString).
  { destruct (stat default_file_name) as [st_mode|]; [|done].
    rewrite regular_and_readable_is_regular.
    destruct (S_ISREG st_mode); [|done]. simpl.
    by destruct (String.eqb_spec default_file_name EmptyString) as [->|]. }
  cbn zeta.
  destruct env_var_name as [name|]; [|exact Hdefault]. simpl.
  destruct (getenv name) as [env_filename|]; [|exact Hdefault].
  destruct (stat env_filename) as [st_mode|]; [|exact Hdefault].
  rewrite regular_and_readable_is_regular.
  destruct (S_ISREG st_mode); [|exact Hdefault].
  destruct (String.eqb_spec env_filename EmptyString) as [->|Hne];
    [exact Hdefault|].
  done.
Qed.

Lemma loadExtraFile_choice
      parse getenv stat singleton default_file_name env_var_name :
  loadExtraFile parse getenv stat singleton default_file_name env_var_name
  = let from_default :=
      if is_regular_file stat default_file_name
      then initialize_and_load parse singleton default_file_name
      else runtime_error
             ("Could not open configuration file " ++ default_file_name) in
    match env_var_name ≫= getenv with
    | Some env_filename =>
        if is_regular_file stat env_filename
        then initialize_and_load parse singleton env_filename
        else from_default
    | None => from_default
    end.
Proof.
  unfold loadExtraFile. rewrite loadExtraFile_real_file_name_choice. cbn zeta.
  assert (Hdefault :
    (if String.eqb (if is_regular_file stat default_file_name
                    then default_file_name else EmptyString) EmptyString
     then runtime_error ("Could not open configuration file " ++ default_file_name)
     else initialize_and_load parse singleton
            (if is_regular_file stat default_file_name
             then default_file_name else EmptyString))
    = if is_regular_file stat default_file_name
      then initialize_and_load parse singleton default_file_name
      else runtime_error
             ("Could not open configuration file " ++ default_file_name)).
  { destruct (is_regular_file stat default_file_name) eqn:Hreg; [|done].
    by rewrite (is_regular_file_named _ _ Hreg). }
  destruct (env_var_name ≫= getenv) as [env_filename|]; [|exact Hdefault].
  destruct (is_regular_file stat env_filename) eqn:Hreg; [|exact Hdefault].
  by rewrite (is_regular_file_named _ _ Hreg).
Qed.

Lemma initialize_and_load_not_runtime_error parse singleton file what :
  initialize_and_load parse singleton file <> runtime_error what.
Proof. by destruct singleton. Qed.

(** X17: [loadExtraFile] ends in the runtime error "Could not open
    configuration file <default>" exactly when neither the file named by
    the environment variable nor the default file is an existing regular
    file, whatever the initialisation of the singleton would do; in every
    other case it goes on to the initialisation loop with a file chosen,
    and ends with the exception of [Conf::initialize] or with that file
    loaded into the singleton's configuration. *)
Theorem loadExtraFile_fails_iff
        parse getenv stat singleton default_file_name env_var_name :
  (loadExtraFile parse getenv stat singleton default_file_name env_var_name
     = runtime_error ("Could not open configuration file " ++ default_file_name)
   <-> ~ regular_file stat default_file_name
       /\ ~ exists name env_filename,
              env_var_name = Some name /\ getenv name = Some env_filename
              /\ regular_file stat env_filename)
  /\ ((exists file,
         regular_file stat file
         /\ loadExtraFile parse getenv stat singleton default_file_name env_var_name
            = match singleton with
              | initialize_throws what => exception_of_initialize what
              | initialized config => Loaded (loadFromFile parse config file)
              end)
      \/ loadExtraFile parse getenv stat singleton default_file_name env_var_name
         = runtime_error ("Could not open configuration file " ++ default_file_name)).
Proof.
  rewrite loadExtraFile_choice. cbn zeta.
  pose proof (is_regular_file_spec stat default_file_name) as Hdef.
  pose proof (initialize_and_load_not_runtime_error parse singleton) as Hnot.
  assert (Henv : forall env_filename,
            env_var_name ≫= getenv = Some env_filename <->
            exists name, env_var_name = Some name /\ getenv name = Some env_filename).
  { intros fn. destruct env_var_name as [name|]; simpl.
    - split; [by exists name | by intros (? & [= <-] & ?)].
    - split; [done | by intros (? & ? & _)]. }
  destruct (env_var_name ≫= getenv) as [env_filename|] eqn:Hfn.
  - pose proof (is_regular_file_spec stat env_filename) as Hfile.
    destruct (proj1 (Henv env_filename) eq_refl) as (name & Hname & Hget).
    destruct (is_regular_file stat env_filename).
    + split; [|left; exists env_filename; split; [by apply Hfile|done]].
      split; [intros Heq; by apply Hnot in Heq|].
      intros [_ Hno]. exfalso. apply Hno. exists name, env_filename.
      split; [done|]. split; [done|]. by apply Hfile.
    + destruct (is_regular_file stat default_file_name).
      * split; [|left; exists default_file_name; split; [by apply Hdef|done]].
        split; [intros Heq; by apply Hnot in Heq|].
        intros [Hno _]. exfalso. apply Hno. by apply Hdef.
      * split; [|by right]. split; [intros _|done]. split.
        -- intros Hreg. apply Hdef in Hreg. done.
        -- intros (name' & fn & Hname' & Hget' & Hreg).
           assert (fn = env_filename) as -> by congruence.
           apply Hfile in Hreg. done.
  - destruct (is_regular_file stat default_file_name).
    + split; [|left; exists default_file_name; split; [by apply Hdef|done]].
      split; [intros Heq; by apply Hnot in Heq|].
      intros [Hno _]. exfalso. apply Hno. by apply Hdef.
    + split; [|by right]. split; [intros _|done]. split.
      * intros Hreg. apply Hdef in Hreg. done.
      * intros (name' & fn & Hname' & Hget' & _).
        assert (@None string = Some fn) as Habs
            by (apply Henv; by exists name').
        done.
Qed.

(** X18: the permission bits of the files are never consulted when
    [loadExtraFile] chooses its file: on two file systems whose files have
    the same file-type bits it settles on the same file name, and throws
    its runtime error on the one exactly when it does on the other,
    whatever the files hold and whatever the initialisation does; so a
    regular file its owner may not read is chosen all the same. *)
Theorem loadExtraFile_ignores_permissions
        parse parse' getenv stat stat' singleton singleton'
        default_file_name env_var_name :
  (forall file_name,
     (fun st_mode => Z.land st_mode S_IFMT) <$> stat file_name
     = (fun st_mode => Z.land st_mode S_IFMT) <$> stat' file_name) ->
  loadExtraFile_real_file_name getenv stat default_file_name env_var_name
  = loadExtraFile_real_file_name getenv stat' default_file_name env_var_name
  /\ (loadExtraFile parse getenv stat singleton default_file_name env_var_name
        = runtime_error ("Could not open configuration file " ++ default_file_name)
      <-> loadExtraFile parse' getenv stat' singleton' default_file_name env_var_name
          = runtime_error ("Could not open configuration file " ++ default_file_name)).
Proof.
  intros Hsame.
  assert (forall file_name,
            is_regular_file stat file_name = is_regular_file stat' file_name)
    as Hreg.
  { intros file_name. unfold is_regular_file, S_ISREG.
    specialize (Hsame file_name).
    destruct (stat file_name), (stat' file_name); simpl in Hsame; try done.
    injection Hsame as ->. done. }
  split.
  - rewrite !loadExtraFile_real_file_name_choice. cbn zeta.
    rewrite (Hreg default_file_name).
    destruct (env_var_name ≫= getenv) as [env_filename|]; [|done].
    by rewrite (Hreg env_filename).
  - pose proof (initialize_and_load_not_runtime_error parse singleton) as Hnot.
    pose proof (initialize_and_load_not_runtime_error parse' singleton') as Hnot'.
    rewrite !loadExtraFile_choice. cbn zeta.
    rewrite (Hreg default_file_name).
    assert ((if is_regular_file stat' default_file_name
             then initialize_and_load parse singleton default_file_name
             else runtime_error
                    ("Could not open configuration file " ++ default_file_name))
            = runtime_error ("Could not open configuration file " ++ default_file_name)
            <-> (if is_regular_file stat' default_file_name
                 then initialize_and_load parse' singleton' default_file_name
                 else runtime_error
                        ("Could not open configuration file " ++ default_file_name))
                = runtime_error ("Could not open configuration file " ++ default_file_name))
      as Hdefault.
    { destruct (is_regular_file stat' default_file_name); [|done].
      split; intros Heq; [by apply Hnot in Heq | by apply Hnot' in Heq]. }
    destruct (env_var_name ≫= getenv) as [env_filename|]; [|exact Hdefault].
    rewrite (Hreg env_filename).
    destruct (is_regular_file stat' env_filename); [|exact Hdefault].
    split; intros Heq; [by apply Hnot in Heq | by apply Hnot' in Heq].
Qed.

Lemma loadExtraFile_ignores_permissions_witness :
  loadExtraFile_real_file_name (fun _ => None) (fun _ => Some 33188)
                               "derecho_node.cfg"
                               (Some "DERECHO_NODE_CONF_FILE"%string)
  = loadExtraFile_real_file_name (fun _ => None) (fun _ => Some 32768)
                                 "derecho_node.cfg"
                                 (Some "DERECHO_NODE_CONF_FILE"%string)
  /\ (loadExtraFile (fun _ => mkGetPot ["DERECHO/local_id"]%string (fun _ => "3"%string))
                    (fun _ => None) (fun _ => Some 33188) (initialized ∅)
                    "derecho_node.cfg" (Some "DERECHO_NODE_CONF_FILE"%string)
        = runtime_error ("Could not open configuration file " ++ "derecho_node.cfg")
      <-> loadExtraFile (fun _ => mkGetPot [] (fun _ => EmptyString))
                        (fun _ => None) (fun _ => Some 32768) (initialized ∅)
                        "derecho_node.cfg" (Some "DERECHO_NODE_CONF_FILE"%string)
          = runtime_error ("Could not open configuration file " ++ "derecho_node.cfg")).
Proof.
  apply (loadExtraFile_ignores_permissions
           (fun _ => mkGetPot ["DERECHO/local_id"]%string (fun _ => "3"%string))
           (fun _ => mkGetPot [] (fun _ => EmptyString))
           (fun _ => None) (fun _ => Some 33188) (fun _ => Some 32768)
           (initialized ∅) (initialized ∅)).
  intros file_name. reflexivity.
Defined.

(** X19: when the environment variable names an existing regular file,
    that file is the one chosen and the default file plays no part: if
    the initialisation throws, its exception is the result, and otherwise
    the file is loaded, after which the variables of the file have the
    file's values and every other key keeps its value. *)
Theorem loadExtraFile_prefers_environment
        parse getenv stat singleton default_file_name name env_filename :
  getenv name = Some env_filename ->
  regular_file stat env_filename ->
  loadExtraFile_real_file_name getenv stat default_file_name (Some name)
  = env_filename
  /\ (forall what,
        singleton = initialize_throws what ->
        loadExtraFile parse getenv stat singleton default_file_name (Some name)
        = exception_of_initialize what)
  /\ (forall config,
        singleton = initialized config ->
        exists config',
          loadExtraFile parse getenv stat singleton default_file_name (Some name)
            = Loaded config'
          /\ forall key,
               config' !! key
               = if decide (key ∈ get_variable_names (parse env_filename))
                 then Some (value (parse env_filename) key) else config !! key).
Proof.
  intros Hget Hreg.
  rewrite loadExtraFile_choice, loadExtraFile_real_file_name_choice.
  simpl. rewrite Hget.
  apply is_regular_file_spec in Hreg. rewrite Hreg.
  split; [done|]. split.
  - by intros what ->.
  - intros config ->. eexists. split; [reflexivity|].
    intros key. apply lookup_loadFromFile.
Qed.

Lemma loadExtraFile_prefers_environment_witness :
  loadExtraFile_real_file_name (fun _ => Some "/etc/derecho/node.cfg"%string)
                               (fun _ => Some 33188) "derecho_node.cfg"
                               (Some "DERECHO_NODE_CONF_FILE"%string)
  = "/etc/derecho/node.cfg"%string
  /\ (forall what,
        initialized ∅ = initialize_throws what ->
        loadExtraFile (fun _ => mkGetPot ["DERECHO/local_id"]%string (fun _ => "3"%string))
                      (fun _ => Some "/etc/derecho/node.cfg"%string)
                      (fun _ => Some 33188) (initialized ∅)
                      "derecho_node.cfg" (Some "DERECHO_NODE_CONF_FILE"%string)
        = exception_of_initialize what)
  /\ (forall config,
        initialized ∅ = initialized config ->
        exists config',
          loadExtraFile (fun _ => mkGetPot ["DERECHO/local_id"]%string (fun _ => "3"%string))
                        (fun _ => Some "/etc/derecho/node.cfg"%string)
                        (fun _ => Some 33188) (initialized ∅)
                        "derecho_node.cfg" (Some "DERECHO_NODE_CONF_FILE"%string)
            = Loaded config'
          /\ forall key,
               config' !! key
               = if decide (key ∈ ["DERECHO/local_id"]%string)
                 then Some "3"%string else config !! key).
Proof.
  apply (loadExtraFile_prefers_environment
           (fun _ => mkGetPot ["DERECHO/local_id"]%string (fun _ => "3"%string))
           (fun _ => Some "/etc/derecho/node.cfg"%string)
           (fun _ => Some 33188) (initialized ∅) "derecho_node.cfg"
           "DERECHO_NODE_CONF_FILE" "/etc/derecho/node.cfg").
  - reflexivity.
  - split; [discriminate|]. exists 33188. split; reflexivity.
Defined.

End ConfLoadFacts.

(** ** [DerechoParams::from_profile] *)

Section ProfileFacts.
Import Params Profile.

Variable hasCustomizedConfKey : string -> bool.
Variables getConfUInt64 getConfUInt32 : string -> Z.
Variable getConfString : string -> string.
Variables DERECHO_HEARTBEAT_MS DERECHO_STATE_TRANSFER_PORT : string.

Local Abbreviation from_profile' :=
  (from_profile hasCustomizedConfKey getConfUInt64 getConfUInt32 getConfString
                DERECHO_HEARTBEAT_MS DERECHO_STATE_TRANSFER_PORT).

Lemma first_missing_none prefix fields :
  first_missing hasCustomizedConfKey prefix fields = None
  <-> forall f, f ∈ fields -> hasCustomizedConfKey (prefix ++ f) = true.
Proof.
  induction fields as [|f fields IH]; simpl.
  - split; [|done]. intros _ f Hin. by apply elem_of_nil in Hin.
  - destruct (hasCustomizedConfKey (prefix ++ f)) eqn:Hf; simpl.
    + rewrite IH. split.
      * intros Hall g Hin. apply elem_of_cons in Hin as [->|Hin]; auto.
      * intros Hall g Hin. apply Hall. by right.
    + split; [done|]. intros Hall.
      specialize (Hall f ltac:(by left)). congruence.
Qed.

Lemma string_app_assoc (s t u : string) :
  ((s ++ t) ++ u)%string = (s ++ (t ++ u))%string.
Proof.
  induction s as [|a s IH]; [done|].
  change (String a ((s ++ t) ++ u) = String a (s ++ (t ++ u)))%string.
  by rewrite IH.
Qed.



Lemma send_algorithm_from_string_returns_iff s :
  returns (send_algorithm_from_string s)
  <-> s ∈ ["binomial_send"; "chain_send"; "sequential_send"; "tree_send"]%string.
Proof.
  unfold send_algorithm_from_string, returns.
  rewrite !elem_of_cons, elem_of_nil.
  do 4 (match goal with
        | |- context [String.eqb s ?lit] =>
            destruct (String.eqb_spec s lit) as [->|?];
            [split; [intros _; auto 6 | eauto] | ]
        end).
  split; [by intros [? ?] | intros [?|[?|[?|[?|[]]]]]; contradiction].
Qed.


Lemma make_DerechoParams_returns_iff p rp m b w h alg port :
  returns (make_DerechoParams p rp m b w h alg port) <-> ~ (b = 0 /\ m < p).
Proof.
  unfold make_DerechoParams, compute_max_msg_size, returns.
  destruct (Z.ltb_spec m p) as [Hlt|Hge].
  - destruct (Z.eqb_spec b 0) as [->|Hb]; simpl.
    + split; [by intros [? ?] | intros Hno; exfalso; by apply Hno].
    + split; [intros _ [? _]; done|intros _].
      destruct (negb _); simpl; by eexists.
  - simpl. split; [intros _ [_ ?]; lia | intros _; by eexists].
Qed.


(** X21: [from_profile] returns a [DerechoParams] only when all six keys
    of the profile are in the configuration, the configured
    [rdmc_send_algorithm] is one of the four algorithm names, and the block
    size is not zero while the payload exceeds the slot payload.  It has
    then printed nothing, and the parameters it returns carry the
    configured block size and window size, the group-wide heartbeat and
    state-transfer port, the algorithm that the configured name stands
    for, and the reply and slot payloads with the header added. *)
Theorem from_profile_returns_only_if profile params :
  snd (from_profile' profile) = Ok params ->
  (forall f, f ∈ subgroupProfileFields ->
     hasCustomizedConfKey ("SUBGROUP/" ++ profile ++ "/" ++ f) = true)
  /\ getConfString ("SUBGROUP/" ++ profile ++ "/" ++ "rdmc_send_algorithm")
     ∈ ["binomial_send"; "chain_send"; "sequential_send"; "tree_send"]%string
  /\ ~ (getConfUInt64 ("SUBGROUP/" ++ profile ++ "/" ++ "block_size") = 0
        /\ getConfUInt64 ("SUBGROUP/" ++ profile ++ "/" ++ "max_smc_payload_size")
           < getConfUInt64 ("SUBGROUP/" ++ profile ++ "/" ++ "max_payload_size"))
  /\ fst (from_profile' profile) = []
  /\ send_algorithm_from_string
       (getConfString ("SUBGROUP/" ++ profile ++ "/" ++ "rdmc_send_algorithm"))
     = Ok (rdmc_send_algorithm params)
  /\ block_size params
     = getConfUInt64 ("SUBGROUP/" ++ profile ++ "/" ++ "block_size")
  /\ window_size params
     = getConfUInt32 ("SUBGROUP/" ++ profile ++ "/" ++ "window_size")
  /\ heartbeat_ms params = getConfUInt32 DERECHO_HEARTBEAT_MS
  /\ state_transfer_port params = getConfUInt32 DERECHO_STATE_TRANSFER_PORT
  /\ max_reply_msg_size params
     = wrap64 (getConfUInt64
                 ("SUBGROUP/" ++ profile ++ "/" ++ "max_reply_payload_size")
               + Header.sizeof_header)
  /\ sst_max_msg_size params
     = wrap64 (getConfUInt64
                 ("SUBGROUP/" ++ profile ++ "/" ++ "max_smc_payload_size")
               + Header.sizeof_header).
Proof.
  assert (Hprefix : forall f,
            ("SUBGROUP/" ++ profile ++ "/" ++ f)%string
            = (("SUBGROUP/" ++ profile ++ "/") ++ f)%string).
  { intros f. by rewrite !string_app_assoc. }
  pose proof (first_missing_none ("SUBGROUP/" ++ profile ++ "/") subgroupProfileFields)
    as Hnone.
  rewrite !Hprefix. unfold from_profile.
  destruct (first_missing hasCustomizedConfKey ("SUBGROUP/" ++ profile ++ "/")
                          subgroupProfileFields) as [key|] eqn:Hmissing;
    [intros Hret; discriminate Hret|].
  cbn [fst snd]. change (field 0) with "max_payload_size"%string.
  change (field 1) with "max_reply_payload_size"%string.
  change (field 2) with "max_smc_payload_size"%string.
  change (field 3) with "block_size"%string.
  change (field 4) with "window_size"%string.
  change (field 5) with "rdmc_send_algorithm"%string.
  intros Hret.
  split; [intros f Hin; rewrite Hprefix; by apply Hnone|].
  destruct (send_algorithm_from_string
              (getConfString (("SUBGROUP/" ++ profile ++ "/") ++ "rdmc_send_algorithm")))
    as [alg|e| |] eqn:Halg; try discriminate Hret.
  split; [apply send_algorithm_from_string_returns_iff; rewrite Halg; by eexists|].
  cbn [mbind outcome_bind] in Hret.
  split.
  { eapply make_DerechoParams_returns_iff. unfold returns. eexists. exact Hret. }
  split; [done|].
  unfold make_DerechoParams in Hret.
  destruct (compute_max_msg_size _ _ _) as [m|e| |]; try discriminate Hret.
  cbn [mbind outcome_bind] in Hret. injection Hret as <-. simpl.
  repeat split.
Qed.

End ProfileFacts.

Lemma from_profile_returns_only_if_witness :
  (forall f, f ∈ Profile.subgroupProfileFields ->
     (fun _ : string => true) ("SUBGROUP/" ++ "small" ++ "/" ++ f)%string = true)
  /\ "binomial_send"%string
     ∈ ["binomial_send"; "chain_send"; "sequential_send"; "tree_send"]%string
  /\ ~ (1024 = 0 /\ 1024 < 1024)
  /\ fst (Profile.from_profile (fun _ => true) (fun _ => 1024) (fun _ => 16)
                               (fun _ => "binomial_send"%string)
                               "DERECHO/heartbeat_ms"
                               "DERECHO/state_transfer_port" "small")
     = []
  /\ Params.send_algorithm_from_string "binomial_send" = Ok Params.BINOMIAL_SEND
  /\ 1024 = 1024
  /\ 16 = 16
  /\ 16 = 16
  /\ 16 = 16
  /\ 1056 = wrap64 (1024 + Header.sizeof_header)
  /\ 1056 = wrap64 (1024 + Header.sizeof_header).
Proof.
  apply (from_profile_returns_only_if
           (fun _ => true) (fun _ => 1024) (fun _ => 16)
           (fun _ => "binomial_send"%string)
           "DERECHO/heartbeat_ms" "DERECHO/state_transfer_port" "small"
           (Params.mkDerechoParams 1056 1056 1056 1024 16 16
                                   Params.BINOMIAL_SEND 16)).
  vm_compute. reflexivity.
Defined.

(** ** What [split_string] returns, next to the split it is meant to
       compute *)

Section SplitStringPieces.
Import StdString Conf ConfReference.

Lemma string_app_empty (s : string) : (s ++ EmptyString)%string = s.
Proof.
  induction s as [|a s IH]; [done|].
  change (String a (s ++ EmptyString) = String a s)%string. by rewrite IH.
Qed.

Lemma suffix_from_empty pos : suffix_from pos EmptyString = EmptyString.
Proof. by destruct pos. Qed.

Lemma suffix_from_add a : forall b s,
  suffix_from a (suffix_from b s) = suffix_from (b + a) s.
Proof.
  intros b. induction b as [|b IH]; intros s; [done|].
  destruct s as [|c s]; simpl; [apply suffix_from_empty | apply IH].
Qed.

Lemma starts_with_split d : forall s,
  starts_with d s = true -> s = (d ++ suffix_from (size d) s)%string.
Proof.
  induction d as [|a d IH]; intros [|b s]; simpl; try done.
  destruct (Ascii.eqb_spec a b) as [->|]; [|done].
  intros Hrest. change (String b s = String b (d ++ suffix_from (size d) s))%string.
  f_equal. by apply IH.
Qed.

Lemma first_occurrence_split d : forall s k,
  first_occurrence d s = Some k ->
  s = (take_chars k s ++ d ++ suffix_from (k + size d) s)%string.
Proof.
  induction s as [|b s IH]; intros k; simpl.
  - destruct (starts_with d EmptyString) eqn:E; [|done].
    intros [= <-]. by apply starts_with_split in E.
  - destruct (starts_with d (String b s)) eqn:E.
    + intros [= <-]. by apply starts_with_split in E.
    + destruct (first_occurrence d s) as [k'|]; [|done].
      intros [= <-]. simpl.
      change (String b s
              = String b (take_chars k' s ++ d ++ suffix_from (k' + size d) s))%string.
      f_equal. by apply IH.
Qed.

(** Where [find] finds the delimiter, the text from the start position on
    is the piece before the delimiter, the delimiter, and the rest. *)
Lemma find_split str d pos n :
  find str d pos = Some n ->
  suffix_from pos str
  = (take_chars (n - pos) (suffix_from pos str) ++ d
       ++ suffix_from (n + size d) str)%string.
Proof.
  unfold find. destruct (Nat.ltb_spec (size str) pos) as [|Hpos]; [done|].
  destruct (first_occurrence d (suffix_from pos str)) as [k|] eqn:E; [|done].
  intros [= <-]. apply first_occurrence_split in E.
  rewrite suffix_from_add in E.
  replace (pos + k - pos)%nat with k by lia.
  replace (pos + k + size d)%nat with (pos + (k + size d))%nat by lia.
  exact E.
Qed.

Lemma take_chars_begins a b : forall s,
  (a <= b)%nat -> begins_with (take_chars b s) (take_chars a s).
Proof.
  revert b. induction a as [|a IH]; intros b s Hle.
  - by exists (take_chars b s).
  - destruct b as [|b]; [lia|]. destruct s as [|c s]; [by exists EmptyString|].
    destruct (IH b s ltac:(lia)) as [extra Hextra].
    exists extra. simpl. rewrite Hextra. reflexivity.
Qed.

Lemma join_cons sep p rest :
  rest <> [] -> join sep (p :: rest) = (p ++ sep ++ join sep rest)%string.
Proof. by destruct rest. Qed.

(** The loop of the code and the loop of the intended split, side by
    side: they find the same delimiters, so they add equally many pieces,
    each piece of the code beginning with the intended one and the last
    ones being the same; the intended pieces join to the text from
    [lastpos] on. *)
Lemma split_loop_beside_segments str d : forall fuel lastpos result result',
  d <> EmptyString ->
  (lastpos <= size str)%nat ->
  (size str - lastpos < fuel)%nat ->
  exists pieces segs,
    split_loop fuel str d lastpos result = Ok (result ++ pieces)
    /\ segments_loop fuel str d lastpos result' = Ok (result' ++ segs)
    /\ Forall2 begins_with pieces segs
    /\ segs <> []
    /\ join d segs = suffix_from lastpos str
    /\ last pieces = last segs
    /\ (lastpos = 0%nat -> head pieces = head segs).
Proof.
  induction fuel as [|fuel IH]; intros lastpos result result' Hd Hpos Hfuel; [lia|].
  assert (1 <= size d)%nat as Hsize by (destruct d; [done | simpl; lia]).
  simpl. destruct (find str d lastpos) as [n|] eqn:Hfind.
  - pose proof (find_split str d lastpos n Hfind) as Hsplit.
    apply find_bounds in Hfind as [Hn Hfit].
    unfold substr. destruct (Nat.ltb_spec (size str) lastpos); [lia|]. simpl.
    destruct (IH (n + size d)%nat
                 (result ++ [take_chars n (suffix_from lastpos str)])
                 (result' ++ [take_chars (n - lastpos) (suffix_from lastpos str)])
                 Hd ltac:(lia) ltac:(lia))
      as (pieces & segs & Hcode & Hmeant & Hbegin & Hne & Hjoin & Hlast & _).
    exists (take_chars n (suffix_from lastpos str) :: pieces),
           (take_chars (n - lastpos) (suffix_from lastpos str) :: segs).
    rewrite Hcode, Hmeant, <- !app_assoc. cbn [app].
    split; [done|]. split; [done|]. split.
    { constructor; [apply take_chars_begins; lia | done]. }
    split; [done|]. split.
    { rewrite join_cons by done. rewrite Hjoin. by rewrite <- Hsplit. }
    split.
    { destruct pieces as [|p pieces]; [by inversion Hbegin; subst|].
      destruct segs as [|q segs]; [done|]. exact Hlast. }
    intros ->. by rewrite Nat.sub_0_r.
  - unfold substr_to_end. destruct (Nat.ltb_spec (size str) lastpos); [lia|].
    simpl. exists [suffix_from lastpos str], [suffix_from lastpos str].
    repeat split; try done.
    constructor; [|constructor]. exists EmptyString. by rewrite string_app_empty.
Qed.

(** X22: for a non-empty delimiter, [split_string] returns one element
    for each piece of the input between delimiters, in order; each element
    begins with its piece, and the first and the last element are exactly
    the first and the last piece.  The pieces themselves join back to the
    input. *)
Theorem split_string_beside_segments str d :
  d <> EmptyString ->
  exists pieces segs,
    split_string str d = Ok pieces
    /\ segments str d = Ok segs
    /\ join d segs = str
    /\ Forall2 begins_with pieces segs
    /\ head pieces = head segs
    /\ last pieces = last segs.
Proof.
  intros Hd.
  destruct (split_loop_beside_segments str d (S (size str)) 0 [] [] Hd)
    as (pieces & segs & Hcode & Hmeant & Hbegin & _ & Hjoin & Hlast & Hhead);
    [lia | lia |].
  exists pieces, segs. unfold split_string, segments.
  rewrite Hcode, Hmeant. repeat split; try done. by apply Hhead.
Qed.

Lemma split_string_beside_segments_witness :
  exists pieces segs,
    split_string "10.0.0.1,10.0.0.2,10.0.0.3" "," = Ok pieces
    /\ segments "10.0.0.1,10.0.0.2,10.0.0.3" "," = Ok segs
    /\ join "," segs = "10.0.0.1,10.0.0.2,10.0.0.3"%string
    /\ Forall2 begins_with pieces segs
    /\ head pieces = head segs
    /\ last pieces = last segs.
Proof.
  apply (split_string_beside_segments "10.0.0.1,10.0.0.2,10.0.0.3" ",").
  discriminate.
Defined.

(** X23: when the delimiter occurs exactly once, [split_string] is right:
    it returns the text before the delimiter and the text after it, and
    joining the two with the delimiter gives the input back. *)
Theorem split_string_one_occurrence str d n :
  d <> EmptyString ->
  find str d 0 = Some n ->
  find str d (n + size d) = None ->
  split_string str d
    = Ok [take_chars n str; suffix_from (n + size d) str]
  /\ segments str d = split_string str d
  /\ join d [take_chars n str; suffix_from (n + size d) str] = str.
Proof.
  intros Hd Hfirst Hnone.
  pose proof (find_split str d 0 n Hfirst) as Hsplit.
  pose proof (find_bounds str d 0 n Hfirst) as [_ Hfit].
  assert (1 <= size d)%nat as Hsize by (destruct d; [done | simpl; lia]).
  unfold split_string, segments.
  destruct (size str) as [|k] eqn:Hk; [lia|].
  cbn [split_loop segments_loop]. rewrite Hfirst, Hnone.
  unfold substr, substr_to_end. rewrite Hk.
  destruct (Nat.ltb_spec (S k) 0); [lia|].
  destruct (Nat.ltb_spec (S k) (n + size d)); [lia|].
  rewrite Nat.sub_0_r. simpl. repeat split.
  rewrite Nat.sub_0_r in Hsplit. simpl in Hsplit. by rewrite <- Hsplit.
Qed.

Lemma split_string_one_occurrence_witness :
  split_string "window_size=16" "="
    = Ok [take_chars 11 "window_size=16"; suffix_from (11 + size "=") "window_size=16"]
  /\ segments "window_size=16" "=" = split_string "window_size=16" "="
  /\ join "=" [take_chars 11 "window_size=16";
               suffix_from (11 + size "=") "window_size=16"]
     = "window_size=16"%string.
Proof.
  apply (split_string_one_occurrence "window_size=16" "=" 11);
    [discriminate | reflexivity | reflexivity].
Defined.

End SplitStringPieces.

(** ** The times the stability callback records *)

Section EndTimes.
Import LatencyTest.

Variables num_nodes sel num_messages my_id : Z.

Local Abbreviation callback := (stability_callback num_nodes sel num_messages my_id).
Local Abbreviation run := (deliver_all num_nodes sel num_messages my_id).

(** The times of the own deliveries, in the order of delivery. *)
Local Abbreviation own_times deliveries :=
  (map snd (filter (fun d : Z * Z => fst d = my_id) deliveries)).

Lemma stability_callback_timing st sender_id now st' :
  callback st sender_id now = Ok st' ->
  end_times st'
  = if sender_id =? my_id
    then <[Z.to_nat (time_index st) := now]> (end_times st)
    else end_times st.
Proof.
  unfold stability_callback.
  destruct (sender_id =? my_id).
  - destruct (time_index st <? Z.of_nat (length (end_times st))); [|done].
    simpl. by intros [= <-].
  - simpl. by intros [= <-].
Qed.

Lemma deliver_all_end_times deliveries : forall st st' (used : nat),
  Z.of_nat (length (end_times st)) < 2 ^ 32 ->
  time_index st = Z.of_nat used ->
  (used + length (own_times deliveries) <= length (end_times st))%nat ->
  run st deliveries = Ok st' ->
  time_index st' = Z.of_nat (used + length (own_times deliveries))
  /\ end_times st'
     = take used (end_times st) ++ own_times deliveries
       ++ drop (used + length (own_times deliveries)) (end_times st).
Proof.
  induction deliveries as [|[sender_id now] rest IH];
    intros st st' used H32 Hused Hroom Hrun.
  - injection Hrun as <-. simpl. rewrite Nat.add_0_r.
    split; [done|]. by rewrite take_drop.
  - simpl in Hrun.
    destruct (callback st sender_id now) as [st1| | |] eqn:Hcall; try done.
    simpl in Hrun.
    pose proof (stability_callback_timing _ _ _ _ Hcall) as Htimes.
    apply stability_callback_effect in Hcall as (_ & _ & Hlen & Hindex).
    rewrite filter_cons in Hroom |- *. simpl in Hroom |- *.
    destruct (decide (sender_id = my_id)) as [->|Hother].
    + rewrite Z.eqb_refl in Hindex, Htimes. simpl in Hroom |- *.
      rewrite Hused, Nat2Z.id in Htimes.
      destruct (IH st1 st' (S used)) as [Hindex' Htimes'];
        rewrite ?Hlen; try done; try lia.
      { rewrite Hindex, Hused, wrap32_small; [lia|]. unfold is_uint32. lia. }
      split; [rewrite Hindex'; lia|].
      rewrite Htimes', Htimes.
      rewrite (take_S_r _ _ now) by (apply list_lookup_insert_eq; lia).
      rewrite take_insert_ge by lia.
      rewrite drop_insert_lt by lia.
      rewrite <- app_assoc. simpl.
      replace (used + S (length (own_times rest)))%nat
        with (S (used + length (own_times rest))) by lia.
      reflexivity.
    + apply Z.eqb_neq in Hother. rewrite Hother in Hindex, Htimes.
      destruct (IH st1 st' used) as [Hindex' Htimes'];
        rewrite ?Hlen; try done; try congruence.
      by rewrite Htimes' , Htimes.
Qed.

End EndTimes.

(** X24: over a run of the stability callback in which at most
    [num_messages] deliveries are of the node's own messages, [end_times]
    ends up holding the times of the own deliveries, in the order of
    delivery, in its first entries, [time_index] counting them; the
    deliveries of other senders leave both alone. *)
Theorem end_times_of_own_deliveries
        num_nodes sel num_messages my_id (deliveries : list (Z * Z)) :
  0 <= num_messages < 2 ^ 32 ->
  Z.of_nat (LatencyTest.own_deliveries my_id deliveries) <= num_messages ->
  exists st,
    LatencyTest.deliver_all num_nodes sel num_messages my_id
      (LatencyTest.callback_init num_messages) deliveries = Ok st
    /\ LatencyTest.time_index st
       = Z.of_nat (LatencyTest.own_deliveries my_id deliveries)
    /\ take (LatencyTest.own_deliveries my_id deliveries) (LatencyTest.end_times st)
       = map snd (filter (fun d : Z * Z => fst d = my_id) deliveries).
Proof.
  intros Hmsg Hown.
  destruct (deliver_all_returns num_nodes sel num_messages my_id deliveries
              (LatencyTest.callback_init num_messages) 0) as [st Hrun].
  { simpl. rewrite length_replicate. lia. }
  { reflexivity. }
  { simpl. rewrite length_replicate. lia. }
  exists st. split; [done|].
  destruct (deliver_all_end_times num_nodes sel num_messages my_id deliveries
              (LatencyTest.callback_init num_messages) st 0) as [Hindex Htimes];
    try done.
  { simpl. rewrite length_replicate. lia. }
  { simpl. rewrite length_replicate, length_map.
    unfold LatencyTest.own_deliveries in Hown. lia. }
  rewrite length_map in Hindex, Htimes.
  fold (LatencyTest.own_deliveries my_id deliveries) in Hindex, Htimes.
  split; [exact Hindex|].
  rewrite Htimes. simpl.
  rewrite take_app_le by (rewrite length_map; done).
  rewrite take_ge; [done|]. by rewrite length_map.
Qed.

Lemma end_times_of_own_deliveries_witness :
  exists st,
    LatencyTest.deliver_all 4 1 1000 12 (LatencyTest.callback_init 1000)
      [(12, 105); (13, 110); (12, 120); (13, 140)] = Ok st
    /\ LatencyTest.time_index st
       = Z.of_nat (LatencyTest.own_deliveries 12
                     [(12, 105); (13, 110); (12, 120); (13, 140)])
    /\ take (LatencyTest.own_deliveries 12
               [(12, 105); (13, 110); (12, 120); (13, 140)])
            (LatencyTest.end_times st)
       = map snd (filter (fun d : Z * Z => fst d = 12)
                         [(12, 105); (13, 110); (12, 120); (13, 140)]).
Proof.
  apply (end_times_of_own_deliveries 4 1 1000 12
           [(12, 105); (13, 110); (12, 120); (13, 140)]).
  - lia.
  - vm_compute. discriminate.
Defined.
